(** * Checksum-Integrity-Hub: the additive checksum and the Hamming(7,4) codec

    A shallow embedding of [src/utils/hashUtils.ts] and of the Hamming
    handlers of [src/App.tsx], with the JavaScript primitives they rely
    on ([charCodeAt], [&], [toString(16)], [toUpperCase], [padStart],
    [split], [Number], [%], array reads and writes, [join], template
    literals) written out.

    Conventions.
    - A JavaScript string is the list of its UTF-16 code units.
    - The numbers of the checksum are doubles that hold an integer, or an
      infinity ([jsdouble]); their addition rounds to the nearest double,
      ties to even, as the addition of the source does.
    - The numbers of the codec are small integers or [NaN]; a read outside
      an array gives [undefined], modelled by [None]. *)

From Stdlib Require Import ZArith NArith List String Ascii Bool Lia.
From Stdlib Require Import DecimalString.
From stdpp Require Import base list.
Import ListNotations.

Local Open Scope Z_scope.

(** ** JavaScript strings *)

Module JS.

(** Written as notations, so that list lemmas apply to strings as they are. *)
Abbreviation codeunit := N (only parsing).
Abbreviation jsstring := (list N) (only parsing).

(** A string literal of the source (ASCII only), as code units. *)
Definition js (s : string) : jsstring :=
  map N_of_ascii (list_ascii_of_string s).
Arguments js s%_string.

(** [s.length] *)
Definition str_length (s : jsstring) : Z := Z.of_nat (length s).

(** [s.charCodeAt(i)] for an index inside the string. *)
Definition charCode (c : codeunit) : Z := Z.of_N c.

(** [!s] for a string: only the empty string is falsy. *)
Definition falsy (s : jsstring) : bool :=
  match s with [] => true | _ => false end.

(** *** Bitwise and: both operands go through ToInt32, the result is a
    signed 32-bit integer. *)
Definition ToInt32 (z : Z) : Z :=
  let m := z mod 2 ^ 32 in
  if 2 ^ 31 <=? m then m - 2 ^ 32 else m.

Definition band (a b : Z) : Z := Z.land (ToInt32 a) (ToInt32 b).

(** *** The numbers of the checksum: the doubles that hold an integer, and
    the two infinities.  A double has 53 significant bits: an integer is
    rounded to the nearest one that has no more, to the even one of two
    that are as near, and to an infinity from 2^1024 on. *)
Inductive jsdouble := Finite (z : Z) | Infinite (negative : bool).

(** Rounding of a positive integer to 53 significant bits. *)
Definition roundMagnitude (a : Z) : Z :=
  let e := Z.log2 a - 52 in
  if e <=? 0 then a
  else
    let q := a / 2 ^ e in
    let r := a mod 2 ^ e in
    let half := 2 ^ (e - 1) in
    let q' := if (half <? r) || ((r =? half) && Z.odd q) then q + 1 else q in
    q' * 2 ^ e.

(** The double nearest to an integer. *)
Definition toDouble (z : Z) : jsdouble :=
  let m := roundMagnitude (Z.abs z) in
  if 2 ^ 1024 <=? m then Infinite (z <? 0) else Finite (Z.sgn z * m).

(** [a + c] for a number [a] and an integer [c] that is a double (a code
    unit): the exact sum, rounded; an infinity stays. *)
Definition double_add (a : jsdouble) (c : Z) : jsdouble :=
  match a with
  | Finite x => toDouble (x + c)
  | Infinite s => Infinite s
  end.

(** [a & b] with a number on the left: ToInt32 takes an infinity to 0. *)
Definition band_double (a : jsdouble) (b : Z) : Z :=
  band (match a with Finite x => x | Infinite _ => 0 end) b.

(** *** [Number.prototype.toString(16)] on an integer: an optional minus
    sign, then the lowercase hexadecimal digits, most significant first,
    without leading zeros. *)
Definition hexDigit (d : Z) : codeunit :=
  if d <? 10 then Z.to_N (48 + d) else Z.to_N (87 + d).

Fixpoint hexDigits (n : nat) (v : Z) : jsstring :=
  match n with
  | O => []
  | S k => hexDigits k (v / 16) ++ [hexDigit (v mod 16)]
  end.

(** Number of hexadecimal digits of a non-negative integer (1 for 0). *)
Definition hexLength (v : Z) : nat := S (Z.to_nat (Z.log2 v / 4)).

Definition toString16 (v : Z) : jsstring :=
  if v <? 0 then 45%N :: hexDigits (hexLength (- v)) (- v)
  else hexDigits (hexLength v) v.


(** *** [toUpperCase], on the ASCII range (all that [toString16] produces):
    the letters a-z move to A-Z, every other code unit below 128 stays. *)
Definition upperUnit (c : codeunit) : codeunit :=
  if ((97 <=? c) && (c <=? 122))%N then (c - 32)%N else c.

Definition toUpperCase (s : jsstring) : jsstring := map upperUnit s.

(** *** [s.padStart(n, c)] with a one-character filler. *)
Definition padStart (s : jsstring) (n : nat) (c : codeunit) : jsstring :=
  repeat c (n - length s) ++ s.

(** *** Numbers of the codec: an integer or [NaN].  A value read from an
    array is a number or [undefined] ([None]). *)
Inductive jsnum := Num (z : Z) | NaN.

Abbreviation jsval := (option jsnum) (only parsing).

(** ToNumber: [undefined] becomes [NaN]. *)
Definition ToNumber (v : jsval) : jsnum :=
  match v with Some n => n | None => NaN end.

Definition num_add (a b : jsnum) : jsnum :=
  match a, b with Num x, Num y => Num (x + y) | _, _ => NaN end.

Definition num_sub (a b : jsnum) : jsnum :=
  match a, b with Num x, Num y => Num (x - y) | _, _ => NaN end.

Definition num_mul (a b : jsnum) : jsnum :=
  match a, b with Num x, Num y => Num (x * y) | _, _ => NaN end.

(** [a % b]: the sign follows the dividend; a zero divisor gives [NaN].
    (No negative dividend occurs in the codec, so no negative zero.) *)
Definition num_rem (a b : jsnum) : jsnum :=
  match a, b with
  | Num x, Num y => if y =? 0 then NaN else Num (Z.rem x y)
  | _, _ => NaN
  end.

(** [a + b] on two values that are numbers or [undefined]. *)
Definition val_add (a b : jsval) : jsval :=
  Some (num_add (ToNumber a) (ToNumber b)).

(** [v === k] and [v !== k] against an integer literal. *)
Definition strictEqZ (v : jsval) (k : Z) : bool :=
  match v with Some (Num z) => z =? k | _ => false end.

(** ToString of a number (an integer is written in decimal, without
    exponent below 10^21), and of a value inside a template literal. *)
Definition num_toString (n : jsnum) : jsstring :=
  match n with
  | Num z => js (NilZero.string_of_int (Z.to_int z))
  | NaN => js "NaN"
  end.

Definition val_toString (v : jsval) : jsstring :=
  match v with Some n => num_toString n | None => js "undefined" end.

(** *** White space and line terminators, which the string-to-number
    conversion trims. *)
Definition isStrWhiteSpace (c : codeunit) : bool :=
  ((9 <=? c) && (c <=? 13) || (c =? 32) || (c =? 160) || (c =? 0x1680)
   || (0x2000 <=? c) && (c <=? 0x200A) || (c =? 0x2028) || (c =? 0x2029)
   || (c =? 0x202F) || (c =? 0x205F) || (c =? 0x3000) || (c =? 0xFEFF))%N.

(** [Number(c)] for a string [c] of one code unit: a decimal digit gives
    its value, white space trims to the empty string and gives 0, anything
    else gives [NaN]. *)
Definition Number_ (c : codeunit) : jsnum :=
  if ((48 <=? c) && (c <=? 57))%N then Num (Z.of_N c - 48)
  else if isStrWhiteSpace c then Num 0
  else NaN.

(** *** Arrays.  An element is a value or a hole ([None]).  A key is an
    array index when it is an integer from 0 to 2^32 - 2.  A read outside
    the array, or at a key that is not an array index, gives [undefined];
    a write past the end extends the array with holes; a write at a key
    that is not an array index adds a property and leaves the elements. *)
Definition isArrayIndex (i : Z) : bool := (0 <=? i) && (i <? 2 ^ 32 - 1).

Definition aget {A} (a : list (option A)) (i : Z) : option A :=
  if isArrayIndex i
  then match a !! Z.to_nat i with Some v => v | None => None end
  else None.

Definition aset {A} (a : list (option A)) (i : Z) (v : option A)
  : list (option A) :=
  if isArrayIndex i then
    let n := Z.to_nat i in
    if (n <? length a)%nat then <[n := v]> a
    else a ++ replicate (n - length a) None ++ [v]
  else a.

(** The same with a number as the key: [NaN] is not an array index. *)
Definition aget_num {A} (a : list (option A)) (k : jsnum) : option A :=
  match k with Num i => aget a i | NaN => None end.

Definition aset_num {A} (a : list (option A)) (k : jsnum) (v : option A)
  : list (option A) :=
  match k with Num i => aset a i v | NaN => a end.

(** [s.split('')]: the array of the one-code-unit strings of [s]. *)
Definition split (s : jsstring) : list (option codeunit) := Some <$> s.

(** [a.join('')]: holes and [undefined] contribute the empty string. *)
Definition join_units (a : list (option codeunit)) : jsstring :=
  flat_map (fun e => match e with Some c => [c] | None => [] end) a.

Definition join_nums (a : list jsval) : jsstring :=
  flat_map (fun e => match e with Some n => num_toString n | None => [] end) a.

End JS.

Import JS.

(** ** src/types.ts *)

Inductive HashAlgorithm : Set := ADDITIVE.

(** [bitWidth] is declared [8 | 16 | 32] but is a plain number at run time
    (it comes from [parseInt] of a form value or from [JSON.parse] of the
    stored parameters), so it is an integer here.  [initialValue] is the
    number [toDouble initialValue]: a double that holds an integer is kept
    as that integer, an infinity as an integer that rounds to it. *)
Record AdditiveOptions := mkAdditiveOptions {
  bitWidth : Z;
  initialValue : Z
}.

(** [errorPosition: number | null] *)
Record HammingResult := mkHammingResult {
  original : jsstring;
  encoded : jsstring;
  received : jsstring;
  corrected : jsstring;
  errorPosition : option jsnum
}.

(** ** src/utils/hashUtils.ts: the additive checksum *)

Module Checksum.

(** The loop [for (i = 0; i < message.length; i++) sum += message.charCodeAt(i)]. *)
Definition sumLoop (message : jsstring) (sum : jsdouble) : jsdouble :=
  fold_left (fun acc c => double_add acc (charCode c)) message sum.

(** The [mask] and [pad] chosen from [bitWidth]: 16 bits unless the width
    is 8 or 32. *)
Definition maskOf (w : Z) : Z :=
  if w =? 8 then 0xFF else if w =? 32 then 0xFFFFFFFF else 0xFFFF.

Definition padOf (w : Z) : nat :=
  if w =? 8 then 2%nat else if w =? 32 then 8%nat else 4%nat.

(** [sum & mask], the number that is rendered. *)
Definition maskedSum (message : jsstring) (options : AdditiveOptions) : Z :=
  band_double (sumLoop message (toDouble (initialValue options)))
    (maskOf (bitWidth options)).

Definition additiveChecksum (message : jsstring) (options : AdditiveOptions)
  : jsstring :=
  let sum := sumLoop message (toDouble (initialValue options)) in
  let mask := maskOf (bitWidth options) in
  let pad := padOf (bitWidth options) in
  padStart (toUpperCase (toString16 (band_double sum mask))) pad 48%N.

(** [calculateChecksum] is [async]: the value below is the one its promise
    resolves to.  [additiveOptions || { bitWidth: 16, initialValue: 0 }]:
    an object is truthy, so the default is taken only when the argument is
    absent. *)
Definition defaultOptions : AdditiveOptions := mkAdditiveOptions 16 0.

Definition calculateChecksum (data : jsstring) (algorithm : HashAlgorithm)
    (additiveOptions : option AdditiveOptions) : jsstring :=
  if falsy data then []
  else additiveChecksum data
         (match additiveOptions with Some o => o | None => defaultOptions end).

End Checksum.

Import Checksum.

(** ** src/utils/hashUtils.ts: the Hamming (7,4) codec *)

Module Hamming.

(** [s.split('').map(Number)] *)
Definition numbers (s : jsstring) : list jsval :=
  (fun c => Some (Number_ c)) <$> s.

Definition parity (a b c : jsval) : jsnum :=
  num_rem (ToNumber (val_add (val_add a b) c)) (Num 2).

Definition parity4 (a b c d : jsval) : jsnum :=
  num_rem (ToNumber (val_add (val_add (val_add a b) c) d)) (Num 2).

Definition encode (data4 : jsstring) : jsstring :=
  let d := numbers data4 in
  let p1 := parity (aget d 0) (aget d 1) (aget d 3) in
  let p2 := parity (aget d 0) (aget d 2) (aget d 3) in
  let p3 := parity (aget d 1) (aget d 2) (aget d 3) in
  num_toString p1 ++ num_toString p2 ++ val_toString (aget d 0)
    ++ num_toString p3 ++ val_toString (aget d 1)
    ++ val_toString (aget d 2) ++ val_toString (aget d 3).

(** [{ corrected: string; errorPos: number | null }] *)
Record DecodeResult := mkDecodeResult {
  corrected : jsstring;
  errorPos : option jsnum
}.

Definition decode (bits7 : jsstring) : DecodeResult :=
  let b := numbers bits7 in
  let s1 := parity4 (aget b 0) (aget b 2) (aget b 4) (aget b 6) in
  let s2 := parity4 (aget b 1) (aget b 2) (aget b 5) (aget b 6) in
  let s3 := parity4 (aget b 3) (aget b 4) (aget b 5) (aget b 6) in
  let errorPos := num_add (num_add s1 (num_mul s2 (Num 2))) (num_mul s3 (Num 4)) in
  let corrected := b in
  let corrected :=
    if negb (strictEqZ (Some errorPos) 0) then
      let k := num_sub errorPos (Num 1) in
      aset_num corrected k
        (if strictEqZ (aget_num corrected k) 0 then Some (Num 1) else Some (Num 0))
    else corrected in
  let dataBits :=
    [aget corrected 2; aget corrected 4; aget corrected 5; aget corrected 6] in
  {| corrected := join_nums dataBits;
     errorPos := if strictEqZ (Some errorPos) 0 then None else Some errorPos |}.

End Hamming.

(** ** src/App.tsx: the Hamming handlers and the state they use *)

Module App.

Record State := mkState {
  hammingInput : jsstring;
  hammingResult : option HammingResult
}.

(** The state at start-up: [useState("1011")] and [useState(null)]. *)
Definition initialState : State := mkState (js "1011") None.

(** The input's [onChange]: [setHammingInput(value.replace(/[^01]/g, ''))]. *)
Definition isBinaryUnit (c : codeunit) : bool := ((c =? 48) || (c =? 49))%N.

Definition stripNonBinary (value : jsstring) : jsstring :=
  List.filter isBinaryUnit value.

Definition onInputChange (value : jsstring) (st : State) : State :=
  mkState (stripNonBinary value) (hammingResult st).

Definition runHamming (st : State) : State :=
  if negb (str_length (hammingInput st) =? 4) then st
  else
    let encoded := Hamming.encode (hammingInput st) in
    mkState (hammingInput st)
      (Some {| original := hammingInput st;
               encoded := encoded;
               received := encoded;
               corrected := hammingInput st;
               errorPosition := None |}).

(** The codeword computed by [flipBit]:
    [bits = received.split(''); bits[index] = bits[index] === '0' ? '1' : '0';
     newReceived = bits.join('')]. *)
Definition flipReceived (received : jsstring) (index : Z) : jsstring :=
  let bits := split received in
  let bits :=
    aset bits index
      (match aget bits index with
       | Some c => if (c =? 48)%N then Some 49%N else Some 48%N
       | None => Some 48%N
       end) in
  join_units bits.

Definition flipBit (index : Z) (st : State) : State :=
  match hammingResult st with
  | None => st
  | Some r =>
      let newReceived := flipReceived (received r) index in
      let d := Hamming.decode newReceived in
      mkState (hammingInput st)
        (Some {| original := original r;
                 encoded := encoded r;
                 received := newReceived;
                 corrected := Hamming.corrected d;
                 errorPosition := Hamming.errorPos d |})
  end.

End App.

(** ** Vocabulary of the claims *)

(** A strict binary string: every code unit is '0' or '1'. *)
Definition isBinary (s : jsstring) : bool := forallb App.isBinaryUnit s.

(** The character of a bit. *)
Definition bitUnit (b : bool) : codeunit := if b then 49%N else 48%N.

Definition bits (bs : list bool) : jsstring := map bitUnit bs.

Ltac each_bit :=
  repeat match goal with b : bool |- _ => destruct b end.

(** The character written by [bits[index] === '0' ? '1' : '0']. *)
Definition toggleUnit (c : codeunit) : codeunit :=
  if (c =? 48)%N then 49%N else 48%N.

(** ** How a call ends *)

(** The error kinds of the kernel's error taxonomy. *)
Inductive KernelError := InvalidLength | InvalidCharacter | UnsupportedConfig.

(** A call ends with a value or with an error raised to the caller. *)
Inductive completion (A : Type) :=
  | Returns (a : A)
  | Throws (e : KernelError).
Arguments Returns {A} a.
Arguments Throws {A} e.

(** [hashUtils.ts] contains no [throw], and none of the operations it
    applies to strings and numbers raises: a call of one of its functions
    ends with the value its body computes. *)
Definition call_additiveChecksum (message : jsstring) (options : AdditiveOptions)
  : completion jsstring := Returns (additiveChecksum message options).

Definition call_calculateChecksum (data : jsstring) (algorithm : HashAlgorithm)
    (additiveOptions : option AdditiveOptions) : completion jsstring :=
  Returns (calculateChecksum data algorithm additiveOptions).

Definition call_encode (data4 : jsstring) : completion jsstring :=
  Returns (Hamming.encode data4).

Definition call_decode (bits7 : jsstring) : completion Hamming.DecodeResult :=
  Returns (Hamming.decode bits7).

(** A valid payload has 4 binary characters, a valid codeword 7. *)
Definition validPayload (s : jsstring) : bool :=
  isBinary s && (length s =? 4)%nat.

Definition validCodeword (s : jsstring) : bool :=
  isBinary s && (length s =? 7)%nat.

(** ** The checksum as the specification words it *)

Definition upperHexDigit (d : Z) : codeunit :=
  if d <? 10 then Z.to_N (48 + d) else Z.to_N (55 + d).

(** The [n] low hexadecimal digits of [v], uppercase, most significant
    first: a string of exactly [n] characters, zeros on the left. *)
Fixpoint hexFixed (n : nat) (v : Z) : jsstring :=
  match n with
  | O => []
  | S k => hexFixed k (v / 16) ++ [upperHexDigit (v mod 16)]
  end.

(** The sum of the UTF-16 code units of a message. *)
Definition codeSum (message : jsstring) : Z :=
  fold_right (fun c acc => charCode c + acc) 0 message.

(** (initialValue + sum of the code units) mod 2^bitWidth, in uppercase
    hexadecimal on bitWidth/4 characters. *)
Definition specChecksum (message : jsstring) (options : AdditiveOptions)
  : jsstring :=
  hexFixed (Z.to_nat (bitWidth options / 4))
    ((initialValue options + codeSum message) mod 2 ^ bitWidth options).

(** The width is one of the three the configuration type allows. *)
Definition supported (w : Z) : Prop := w = 8 \/ w = 16 \/ w = 32.

(** The initial value and every sum the loop reaches on the message are
    integers that a double holds exactly (at most 2^53 in magnitude). *)
Definition exactSum (message : jsstring) (v : Z) : Prop :=
  - 2 ^ 53 <= v /\ v + codeSum message <= 2 ^ 53.

(** ** Reading a checksum back as a number *)

Definition hexDigitValue (c : codeunit) : option Z :=
  if ((48 <=? c) && (c <=? 57))%N then Some (Z.of_N c - 48)
  else if ((65 <=? c) && (c <=? 70))%N then Some (Z.of_N c - 55)
  else if ((97 <=? c) && (c <=? 102))%N then Some (Z.of_N c - 87)
  else None.

Fixpoint hexNat (acc : Z) (s : jsstring) : option Z :=
  match s with
  | [] => Some acc
  | c :: s' =>
      match hexDigitValue c with
      | Some d => hexNat (16 * acc + d) s'
      | None => None
      end
  end.

(** The value of a string of one or more hexadecimal digits. *)
Definition hexMagnitude (s : jsstring) : option Z :=
  match s with [] => None | _ => hexNat 0 s end.

(** The number a string denotes in hexadecimal: an optional minus sign,
    then one or more digits; [None] for any other string. *)
Definition hexValue (s : jsstring) : option Z :=
  match s with
  | [] => None
  | c :: s' =>
      if (c =? 45)%N then option_map Z.opp (hexMagnitude s')
      else hexMagnitude s
  end.

(** The number written by a string of zeros followed by an optional minus
    sign and hexadecimal digits (0 when nothing follows the zeros). *)
Fixpoint dropZeros (s : jsstring) : jsstring :=
  match s with
  | c :: s' => if (c =? 48)%N then dropZeros s' else s
  | [] => []
  end.

Definition digitsValue (s : jsstring) : Z :=
  match hexNat 0 s with Some x => x | None => 0 end.

Definition paddedValue (s : jsstring) : Z :=
  match dropZeros s with
  | [] => 0
  | c :: s' => if (c =? 45)%N then - digitsValue s' else digitsValue (c :: s')
  end.

(** ** Distance between two strings of the same length *)

(** The number of positions at which two strings differ. *)
Fixpoint distance (a b : jsstring) : nat :=
  match a, b with
  | x :: a', y :: b' => ((if (x =? y)%N then 0 else 1) + distance a' b')%nat
  | _, _ => 0%nat
  end.

(** [a === b] on two strings. *)
Fixpoint str_eqb (a b : jsstring) : bool :=
  match a, b with
  | [], [] => true
  | x :: a', y :: b' => (x =? y)%N && str_eqb a' b'
  | _, _ => false
  end.

(** ** [parseInt(string, 16)] *)

Module Parse.




End Parse.

(** ** src/types.ts: history entries and batch items *)

Inductive EntryType : Set := single | batch | correction.

Inductive EntryResult : Set :=
  result_match | result_mismatch | result_corrected | result_info.

Inductive ItemStatus : Set := pending | processing | completed.

Module HistoryEntry.
Record t := mk {
  id : jsstring;
  timestamp : Z;
  algorithm : jsstring;
  type : EntryType;
  result : EntryResult;
  summary : jsstring
}.
End HistoryEntry.

(** [checksum?: string] *)
Module BatchItem.
Record t := mk {
  id : jsstring;
  name : jsstring;
  size : Z;
  data : jsstring;
  checksum : option jsstring;
  status : ItemStatus
}.
End BatchItem.

(** ** src/App.tsx: the checksum, batch and history handlers *)

Module Integrity.

(** The state cells these handlers read and write, and the two entries of
    the local storage they write.  The storage holds the JSON text of a
    value; the model holds the value. *)
Record State := mkState {
  additiveOptions : AdditiveOptions;
  senderData : jsstring;
  senderChecksum : jsstring;
  receiverData : jsstring;
  receiverReceivedChecksum : jsstring;
  receiverCalculatedChecksum : jsstring;
  batchItems : list BatchItem.t;
  history : list HistoryEntry.t;
  storedHistory : option (list HistoryEntry.t);
  storedParams : option AdditiveOptions
}.

(** What a handler draws from its environment: [Math.random().toString(36)]
    and [Date.now()]. *)
Record Draw := mkDraw {
  randomId : jsstring;
  now : Z
}.

Definition setAdditiveOptions (o : AdditiveOptions) (st : State) : State :=
  mkState o (senderData st) (senderChecksum st) (receiverData st)
    (receiverReceivedChecksum st) (receiverCalculatedChecksum st)
    (batchItems st) (history st) (storedHistory st) (storedParams st).

Definition setStoredParams (o : option AdditiveOptions) (st : State) : State :=
  mkState (additiveOptions st) (senderData st) (senderChecksum st)
    (receiverData st) (receiverReceivedChecksum st)
    (receiverCalculatedChecksum st) (batchItems st) (history st)
    (storedHistory st) o.

Definition setSenderData (d : jsstring) (st : State) : State :=
  mkState (additiveOptions st) d (senderChecksum st) (receiverData st)
    (receiverReceivedChecksum st) (receiverCalculatedChecksum st)
    (batchItems st) (history st) (storedHistory st) (storedParams st).

Definition setSenderChecksum (c : jsstring) (st : State) : State :=
  mkState (additiveOptions st) (senderData st) c (receiverData st)
    (receiverReceivedChecksum st) (receiverCalculatedChecksum st)
    (batchItems st) (history st) (storedHistory st) (storedParams st).

Definition setReceiverData (d : jsstring) (st : State) : State :=
  mkState (additiveOptions st) (senderData st) (senderChecksum st) d
    (receiverReceivedChecksum st) (receiverCalculatedChecksum st)
    (batchItems st) (history st) (storedHistory st) (storedParams st).

Definition setReceiverReceivedChecksum (c : jsstring) (st : State) : State :=
  mkState (additiveOptions st) (senderData st) (senderChecksum st)
    (receiverData st) c (receiverCalculatedChecksum st)
    (batchItems st) (history st) (storedHistory st) (storedParams st).

Definition setReceiverCalculatedChecksum (c : jsstring) (st : State) : State :=
  mkState (additiveOptions st) (senderData st) (senderChecksum st)
    (receiverData st) (receiverReceivedChecksum st) c
    (batchItems st) (history st) (storedHistory st) (storedParams st).

Definition setBatchItems (items : list BatchItem.t) (st : State) : State :=
  mkState (additiveOptions st) (senderData st) (senderChecksum st)
    (receiverData st) (receiverReceivedChecksum st)
    (receiverCalculatedChecksum st) items (history st) (storedHistory st)
    (storedParams st).

Definition setHistory (h : list HistoryEntry.t) (st : State) : State :=
  mkState (additiveOptions st) (senderData st) (senderChecksum st)
    (receiverData st) (receiverReceivedChecksum st)
    (receiverCalculatedChecksum st) (batchItems st) h (storedHistory st)
    (storedParams st).

Definition setStoredHistory (h : option (list HistoryEntry.t)) (st : State)
  : State :=
  mkState (additiveOptions st) (senderData st) (senderChecksum st)
    (receiverData st) (receiverReceivedChecksum st)
    (receiverCalculatedChecksum st) (batchItems st) (history st) h
    (storedParams st).

Definition saveAdditiveOptions (opts : AdditiveOptions) (st : State) : State :=
  setStoredParams (Some opts) (setAdditiveOptions opts st).

(** [[newEntry, ...history].slice(0, 50)] *)
Definition addToHistory (algorithm : jsstring) (type : EntryType)
    (result : EntryResult) (summary : jsstring) (env : Draw) (st : State)
  : State :=
  let newEntry :=
    HistoryEntry.mk (randomId env) (now env) algorithm type result summary in
  let updated := take 50 (newEntry :: history st) in
  setStoredHistory (Some updated) (setHistory updated st).

(** The log's clear button: [setHistory([]); localStorage.removeItem(...)]. *)
Definition clearHistory (st : State) : State :=
  setStoredHistory None (setHistory [] st).

(** [updateSenderChecksum] and [updateReceiverChecksum]: the state after
    the promise of [calculateChecksum] has resolved. *)
Definition updateSenderChecksum (st : State) : State :=
  setSenderChecksum
    (calculateChecksum (senderData st) ADDITIVE (Some (additiveOptions st))) st.

Definition updateReceiverChecksum (st : State) : State :=
  setReceiverCalculatedChecksum
    (calculateChecksum (receiverData st) ADDITIVE (Some (additiveOptions st))) st.

(** The two effects, which run after a render in which their data or the
    options have changed. *)
Definition runEffects (st : State) : State :=
  updateReceiverChecksum (updateSenderChecksum st).

(** [`Additive (${additiveOptions.bitWidth}-bit)`] *)
Definition algorithmLabel (o : AdditiveOptions) : jsstring :=
  js "Additive (" ++ num_toString (Num (bitWidth o)) ++ js "-bit)".

Definition transmit (env : Draw) (st : State) : State :=
  let st1 := setReceiverData (senderData st) st in
  let st2 := setReceiverReceivedChecksum (senderChecksum st) st1 in
  addToHistory (algorithmLabel (additiveOptions st)) single result_info
    (js "Transmitted: " ++ take 20 (senderData st) ++ js "...") env st2.

Definition isMatch (st : State) : bool :=
  negb (falsy (receiverCalculatedChecksum st))
  && str_eqb (receiverCalculatedChecksum st) (receiverReceivedChecksum st).

Definition isMismatch (st : State) : bool :=
  negb (falsy (receiverCalculatedChecksum st))
  && negb (falsy (receiverReceivedChecksum st))
  && negb (str_eqb (receiverCalculatedChecksum st) (receiverReceivedChecksum st)).




(** A selected file and the id drawn for it. *)
Record Upload := mkUpload {
  fileName : jsstring;
  fileSize : Z;
  drawnId : jsstring
}.

Definition handleFileUpload (files : list Upload) (st : State) : State :=
  let newItems :=
    map (fun f => BatchItem.mk (drawnId f) (fileName f) (fileSize f) [] None pending)
      files in
  setBatchItems (batchItems st ++ newItems) st.

(** One turn of the loop of [processBatch] on an item that is not
    completed: the item is marked, then given the checksum of
    [item.name + item.size]. *)
Definition markProcessing (item : BatchItem.t) : BatchItem.t :=
  BatchItem.mk (BatchItem.id item) (BatchItem.name item) (BatchItem.size item)
    (BatchItem.data item) (BatchItem.checksum item) processing.

Definition complete (o : AdditiveOptions) (item : BatchItem.t) : BatchItem.t :=
  BatchItem.mk (BatchItem.id item) (BatchItem.name item) (BatchItem.size item)
    (BatchItem.data item)
    (Some (calculateChecksum
             (BatchItem.name item ++ num_toString (Num (BatchItem.size item)))
             ADDITIVE (Some o)))
    completed.

Definition isCompleted (item : BatchItem.t) : bool :=
  match BatchItem.status item with completed => true | _ => false end.

(** The loop over [updated]: [before] holds the items already visited,
    [rest] those to visit.  The result is the array at the end and the
    arrays passed to [setBatchItems] on the way, in order. *)
Fixpoint processLoop (o : AdditiveOptions) (before rest : list BatchItem.t)
  : list BatchItem.t * list (list BatchItem.t) :=
  match rest with
  | [] => (before, [])
  | item :: rest' =>
      if isCompleted item then processLoop o (before ++ [item]) rest'
      else
        let item1 := markProcessing item in
        let item2 := complete o item1 in
        let '(final, shown) := processLoop o (before ++ [item2]) rest' in
        (final, (before ++ item1 :: rest') :: (before ++ item2 :: rest') :: shown)
  end.

Definition processBatch (env : Draw) (st : State) : State :=
  let '(final, shown) := processLoop (additiveOptions st) [] (batchItems st) in
  let st1 := match shown with [] => st | _ => setBatchItems final st end in
  addToHistory (algorithmLabel (additiveOptions st)) batch result_info
    (js "Batch processed "
       ++ num_toString (Num (Z.of_nat (length (batchItems st))))
       ++ js " files.")
    env st1.

End Integrity.

(** What the loop of [processBatch] makes of one item, from start to end. *)
Definition processed (o : AdditiveOptions) (item : BatchItem.t) : BatchItem.t :=
  if Integrity.isCompleted item then item
  else Integrity.complete o (Integrity.markProcessing item).

(** * Properties *)

(** ** Binary strings *)

Lemma map_is_fmap {A B} (f : A -> B) (l : list A) : map f l = f <$> l.
Proof. induction l as [| a l IH]; simpl; [reflexivity | now rewrite IH]. Qed.

Lemma isBinaryUnit_bitUnit c :
  App.isBinaryUnit c = true -> exists b, c = bitUnit b.
Proof.
  unfold App.isBinaryUnit. intros H.
  apply orb_true_iff in H as [H | H]; apply N.eqb_eq in H; subst c.
  - now exists false.
  - now exists true.
Qed.

Lemma isBinary_bits s : isBinary s = true -> exists bs, s = bits bs.
Proof.
  induction s as [| c s IH]; simpl; intros H.
  - now exists [].
  - apply andb_true_iff in H as [Hc Hs].
    destruct (isBinaryUnit_bitUnit c Hc) as [b ->].
    destruct (IH Hs) as [bs ->].
    now exists (b :: bs).
Qed.

Lemma bits_isBinary bs : isBinary (bits bs) = true.
Proof. induction bs as [| [] bs IH]; simpl; auto. Qed.

Lemma binary4 d :
  isBinary d = true -> length d = 4%nat ->
  exists b0 b1 b2 b3, d = bits [b0; b1; b2; b3].
Proof.
  intros Hb Hl. destruct (isBinary_bits d Hb) as [bs ->].
  unfold bits in Hl. rewrite length_map in Hl.
  destruct bs as [| b0 [| b1 [| b2 [| b3 [| ? ?]]]]]; try discriminate.
  now exists b0, b1, b2, b3.
Qed.

Lemma binary7 c :
  isBinary c = true -> length c = 7%nat ->
  exists b0 b1 b2 b3 b4 b5 b6, c = bits [b0; b1; b2; b3; b4; b5; b6].
Proof.
  intros Hb Hl. destruct (isBinary_bits c Hb) as [bs ->].
  unfold bits in Hl. rewrite length_map in Hl.
  destruct bs as [| b0 [| b1 [| b2 [| b3 [| b4 [| b5 [| b6 [| ? ?]]]]]]]];
    try discriminate.
  now exists b0, b1, b2, b3, b4, b5, b6.
Qed.

(** ** The Hamming codec on well-formed input *)

(** C3. For payload bits d0 d1 d2 d3, [Hamming.encode] returns the seven
    characters p1 p2 d0 p3 d1 d2 d3 with p1 = d0 xor d1 xor d3,
    p2 = d0 xor d2 xor d3 and p3 = d1 xor d2 xor d3; for "1011" this is
    "0110011". *)
Theorem encode_layout :
  (forall d0 d1 d2 d3 : bool,
     Hamming.encode (bits [d0; d1; d2; d3]) =
     bits [xorb (xorb d0 d1) d3; xorb (xorb d0 d2) d3; d0;
           xorb (xorb d1 d2) d3; d1; d2; d3])
  /\ Hamming.encode (js "1011") = js "0110011".
Proof.
  split.
  - intros d0 d1 d2 d3. each_bit; vm_compute; reflexivity.
  - vm_compute. reflexivity.
Qed.

(** C2. Decoding the codeword of a 4-character binary payload gives the
    payload back and reports no error position ([errorPos] is null). *)
Theorem decode_encode_roundtrip (d : jsstring) :
  isBinary d = true -> length d = 4%nat ->
  Hamming.decode (Hamming.encode d) = Hamming.mkDecodeResult d None.
Proof.
  intros Hb Hl. destruct (binary4 d Hb Hl) as (b0 & b1 & b2 & b3 & ->).
  each_bit; vm_compute; reflexivity.
Qed.

Lemma decode_encode_roundtrip_witness :
  Hamming.decode (Hamming.encode (js "1011")) =
  Hamming.mkDecodeResult (js "1011") None.
Proof.
  apply (decode_encode_roundtrip (js "1011")); reflexivity.
Defined.

(** C1. Flipping the bit at 1-indexed position k (1..7) of the codeword of
    a 4-character binary payload d and decoding gives d back, with error
    position k. *)
Theorem single_bit_error_corrected (d : jsstring) (k : Z) :
  isBinary d = true -> length d = 4%nat -> 1 <= k <= 7 ->
  Hamming.decode (App.flipReceived (Hamming.encode d) (k - 1)) =
  Hamming.mkDecodeResult d (Some (Num k)).
Proof.
  intros Hb Hl Hk. destruct (binary4 d Hb Hl) as (b0 & b1 & b2 & b3 & ->).
  assert (Hc : k = 1 \/ k = 2 \/ k = 3 \/ k = 4 \/ k = 5 \/ k = 6 \/ k = 7)
    by lia.
  repeat (destruct Hc as [-> | Hc]); try subst k;
    each_bit; vm_compute; reflexivity.
Qed.

Lemma single_bit_error_corrected_witness :
  Hamming.decode (App.flipReceived (Hamming.encode (js "1011")) (5 - 1)) =
  Hamming.mkDecodeResult (js "1011") (Some (Num 5)).
Proof.
  apply (single_bit_error_corrected (js "1011") 5); [reflexivity | reflexivity | lia].
Defined.

(** ** Bit flips *)

Lemma toggleUnit_bitUnit b : toggleUnit (bitUnit b) = bitUnit (negb b).
Proof. now destruct b. Qed.

Lemma join_units_split (s : jsstring) : join_units (split s) = s.
Proof.
  unfold join_units, split.
  induction s as [| c s IH]; simpl; [reflexivity | now f_equal].
Qed.

(** Inside the string, [flipReceived] is an in-place update of one
    character. *)
Lemma flipReceived_inside (s : jsstring) (i : Z) (c : codeunit) :
  0 <= i < 2 ^ 32 - 1 -> s !! Z.to_nat i = Some c ->
  App.flipReceived s i = <[Z.to_nat i := toggleUnit c]> s.
Proof.
  intros Hi Hc. unfold App.flipReceived, aset, aget, split, isArrayIndex.
  destruct (Z.leb_spec 0 i) as [_ | ?]; [| lia].
  destruct (Z.ltb_spec i (2 ^ 32 - 1)) as [_ | ?]; [| lia].
  cbv [andb]. rewrite list_lookup_fmap, Hc. simpl.
  rewrite length_fmap.
  destruct (Nat.ltb_spec (Z.to_nat i) (length s)) as [_ | Hge].
  - fold (toggleUnit c).
    replace (if (c =? 48)%N then Some 49%N else Some 48%N)
      with (Some (toggleUnit c)) by (unfold toggleUnit; now destruct (c =? 48)%N).
    rewrite <- list_fmap_insert. apply (join_units_split _).
  - apply lookup_lt_Some in Hc. lia.
Qed.

(** Outside the string: a key that is not an array index changes nothing,
    an index past the end appends a '0'. *)
Lemma flipReceived_not_index (s : jsstring) (i : Z) :
  isArrayIndex i = false -> App.flipReceived s i = s.
Proof.
  intros Hi. unfold App.flipReceived, aset. rewrite Hi.
  apply join_units_split.
Qed.

Lemma flipReceived_past_end (s : jsstring) (i : Z) :
  Z.of_nat (length s) <= i < 2 ^ 32 - 1 -> App.flipReceived s i = s ++ [48%N].
Proof.
  intros Hi. unfold App.flipReceived, aset, aget, split, isArrayIndex.
  destruct (Z.leb_spec 0 i) as [_ | ?]; [| lia].
  destruct (Z.ltb_spec i (2 ^ 32 - 1)) as [_ | ?]; [| lia].
  cbv [andb]. rewrite list_lookup_fmap, length_fmap.
  rewrite (lookup_ge_None_2 s (Z.to_nat i)) by lia. simpl.
  destruct (Nat.ltb_spec (Z.to_nat i) (length s)) as [? | _]; [lia |].
  unfold join_units. rewrite !flat_map_app.
  fold (join_units (Some <$> s)). fold (split s). rewrite join_units_split.
  f_equal. simpl.
  induction (Z.to_nat i - length s)%nat as [| n IH]; simpl; auto.
Qed.

(** What [flipBit] stores as the received codeword. *)
Lemma flipBit_received (st : App.State) (r : HammingResult) (i : Z) :
  App.hammingResult st = Some r ->
  exists r', App.hammingResult (App.flipBit i st) = Some r'
             /\ received r' = App.flipReceived (received r) i.
Proof.
  intros Hst. unfold App.flipBit. rewrite Hst.
  eexists. split; reflexivity.
Qed.

(** C9. On a state whose received codeword c is a 7-character binary
    string, [flipBit] at an index i in 0..6 stores a codeword of the same
    length that has the bit at i toggled and every other bit unchanged;
    flipping the same index twice restores c. *)
Theorem flipBit_toggles_one_bit (st : App.State) (r : HammingResult) (i : Z) :
  App.hammingResult st = Some r ->
  isBinary (received r) = true -> length (received r) = 7%nat ->
  0 <= i <= 6 ->
  exists (r' : HammingResult) (b : bool),
    App.hammingResult (App.flipBit i st) = Some r'
    /\ length (received r') = 7%nat
    /\ received r !! Z.to_nat i = Some (bitUnit b)
    /\ received r' !! Z.to_nat i = Some (bitUnit (negb b))
    /\ (forall j : nat, j <> Z.to_nat i -> received r' !! j = received r !! j)
    /\ option_map received (App.hammingResult (App.flipBit i (App.flipBit i st)))
       = Some (received r).
Proof.
  intros Hst Hbin Hlen Hi.
  destruct (isBinary_bits _ Hbin) as [bs Hbs].
  assert (Hlt : (Z.to_nat i < length (received r))%nat) by lia.
  destruct (lookup_lt_is_Some_2 _ _ Hlt) as [c Hc].
  assert (Hb : exists b, c = bitUnit b).
  { rewrite Hbs in Hc. unfold bits in Hc.
    rewrite map_is_fmap, list_lookup_fmap in Hc.
    destruct (bs !! Z.to_nat i) as [b |]; [| discriminate].
    exists b. simpl in Hc. congruence. }
  destruct Hb as [b ->].
  assert (Hidx : 0 <= i < 2 ^ 32 - 1) by lia.
  assert (Hflip : App.flipReceived (received r) i
                  = <[Z.to_nat i := bitUnit (negb b)]> (received r)).
  { rewrite (flipReceived_inside _ _ _ Hidx Hc).
    now rewrite toggleUnit_bitUnit. }
  destruct (flipBit_received st r i Hst) as (r' & Hr' & Hrec).
  exists r', b. rewrite Hrec, Hflip.
  split; [exact Hr' |].
  split; [now rewrite length_insert |].
  split; [exact Hc |].
  split; [now apply list_lookup_insert_eq |].
  split; [intros j Hj; now apply list_lookup_insert_ne |].
  destruct (flipBit_received (App.flipBit i st) r' i Hr') as (r2 & Hr2 & Hrec2).
  rewrite Hr2. simpl. rewrite Hrec2, Hrec, Hflip.
  rewrite (flipReceived_inside _ i (bitUnit (negb b)) Hidx)
    by now apply list_lookup_insert_eq.
  rewrite toggleUnit_bitUnit, negb_involutive, list_insert_insert_eq.
  now rewrite (list_insert_id _ _ _ Hc).
Qed.

Lemma flipBit_toggles_one_bit_witness :
  let st := App.runHamming App.initialState in
  let r := mkHammingResult (js "1011") (js "0110011") (js "0110011") (js "1011") None in
  exists (r' : HammingResult) (b : bool),
    App.hammingResult (App.flipBit 4 st) = Some r'
    /\ length (received r') = 7%nat
    /\ received r !! Z.to_nat 4 = Some (bitUnit b)
    /\ received r' !! Z.to_nat 4 = Some (bitUnit (negb b))
    /\ (forall j : nat, j <> Z.to_nat 4 -> received r' !! j = received r !! j)
    /\ option_map received (App.hammingResult (App.flipBit 4 (App.flipBit 4 st)))
       = Some (received r).
Proof.
  apply (flipBit_toggles_one_bit (App.runHamming App.initialState)
           (mkHammingResult (js "1011") (js "0110011") (js "0110011") (js "1011") None) 4);
    [reflexivity | reflexivity | reflexivity | lia].
Defined.

(** ** Input that is not a binary string of the required length *)

(** C7, as stated, fails: [Hamming.encode] returns a string for "101" (too
    short) and for "10121" (too long, with a character that is not a bit),
    and [Hamming.decode] returns a result for "011". *)
Lemma encode_accepts_invalid_input :
  validPayload (js "101") = false
  /\ call_encode (js "101") = Returns (js "NaNNaN1NaN01undefined")
  /\ validPayload (js "10121") = false
  /\ call_encode (js "10121") = Returns (js "1011012")
  /\ validCodeword (js "011") = false
  /\ call_decode (js "011") = Returns (Hamming.mkDecodeResult (js "1") (Some NaN))
  /\ ~ (forall s, validPayload s = false -> exists e, call_encode s = Throws e).
Proof.
  repeat split; try (vm_compute; reflexivity).
  intros H. destruct (H (js "101") eq_refl) as [e He]. discriminate He.
Qed.

Lemma stripNonBinary_isBinary value : isBinary (App.stripNonBinary value) = true.
Proof.
  unfold App.stripNonBinary, isBinary.
  induction value as [| c v IH]; simpl; [reflexivity |].
  destruct (App.isBinaryUnit c) eqn:E; simpl; [now rewrite E |]; exact IH.
Qed.

Lemma encode_valid d :
  validPayload d = true -> validCodeword (Hamming.encode d) = true.
Proof.
  unfold validPayload. intros H. apply andb_true_iff in H as [Hb Hl].
  apply Nat.eqb_eq in Hl.
  destruct (binary4 d Hb Hl) as (b0 & b1 & b2 & b3 & ->).
  each_bit; vm_compute; reflexivity.
Qed.

(** C7, amended. [Hamming.encode] and [Hamming.decode] check nothing and
    never fail: every call returns.  The checks are the caller's:
    [runHamming] leaves the state as it is unless the input has exactly 4
    characters, the input handler keeps only the characters '0' and '1',
    and from such an input [runHamming] stores a 7-character binary
    codeword. *)
Theorem codec_checks_are_the_callers :
  (forall s e, call_encode s <> Throws e)
  /\ (forall s e, call_decode s <> Throws e)
  /\ (forall st, length (App.hammingInput st) <> 4%nat -> App.runHamming st = st)
  /\ (forall value st,
        isBinary (App.hammingInput (App.onInputChange value st)) = true)
  /\ (forall st, validPayload (App.hammingInput st) = true ->
        exists r, App.hammingResult (App.runHamming st) = Some r
                  /\ encoded r = Hamming.encode (App.hammingInput st)
                  /\ validCodeword (encoded r) = true).
Proof.
  split; [intros s e; discriminate |].
  split; [intros s e; discriminate |].
  split.
  { intros st H. unfold App.runHamming, str_length.
    destruct (Z.eqb_spec (Z.of_nat (length (App.hammingInput st))) 4) as [E | _];
      [lia | reflexivity]. }
  split; [intros value st; apply stripNonBinary_isBinary |].
  intros st H.
  assert (Hl : length (App.hammingInput st) = 4%nat).
  { unfold validPayload in H. apply andb_true_iff in H as [_ Hl].
    now apply Nat.eqb_eq in Hl. }
  unfold App.runHamming, str_length. rewrite Hl. simpl.
  eexists. split; [reflexivity |]. split; [reflexivity |].
  now apply encode_valid.
Qed.

(** ** The empty message and unsupported widths *)

(** C10. Whatever the algorithm and the options (present or absent),
    [calculateChecksum] returns the empty string for the empty string. *)
Theorem empty_input_short_circuits (algorithm : HashAlgorithm)
    (additiveOptions : option AdditiveOptions) :
  calculateChecksum [] algorithm additiveOptions = [].
Proof. reflexivity. Qed.

(** C5, as stated, fails: for the empty message the exported operation
    returns the empty string, not "0000". *)
Lemma exported_checksum_of_empty_input :
  call_calculateChecksum (js "") ADDITIVE (Some (mkAdditiveOptions 16 0))
    = Returns (js "")
  /\ calculateChecksum (js "") ADDITIVE (Some (mkAdditiveOptions 16 0)) <> js "0000".
Proof. split; [reflexivity | discriminate]. Qed.

(** C6, as stated, fails: with [bitWidth] 24 the call returns a checksum
    string, the 16-bit one. *)
Lemma additiveChecksum_width24_returns :
  call_additiveChecksum (js "A") (mkAdditiveOptions 24 0) = Returns (js "0041")
  /\ (forall e, call_additiveChecksum (js "A") (mkAdditiveOptions 24 0) <> Throws e).
Proof. split; [vm_compute; reflexivity | intros e; discriminate]. Qed.

(** C6, amended. With a [bitWidth] other than 8 and 32 (24, say) the
    checksum operation does not fail: it returns the checksum of width 16,
    also through [calculateChecksum] on a message that is not empty. *)
Theorem unsupported_width_is_16 (message : jsstring) (w v : Z) :
  w <> 8 -> w <> 32 ->
  call_additiveChecksum message (mkAdditiveOptions w v)
    = Returns (additiveChecksum message (mkAdditiveOptions 16 v))
  /\ (message <> [] ->
      call_calculateChecksum message ADDITIVE (Some (mkAdditiveOptions w v))
        = Returns (additiveChecksum message (mkAdditiveOptions 16 v))).
Proof.
  intros H8 H32.
  assert (E : additiveChecksum message (mkAdditiveOptions w v)
              = additiveChecksum message (mkAdditiveOptions 16 v)).
  { unfold additiveChecksum, maskOf, padOf. simpl.
    destruct (Z.eqb_spec w 8); [contradiction |].
    destruct (Z.eqb_spec w 32); [contradiction |]. reflexivity. }
  split.
  - unfold call_additiveChecksum. now rewrite E.
  - intros Hne. unfold call_calculateChecksum, calculateChecksum.
    destruct message; [contradiction |]. simpl falsy. cbv iota. now rewrite E.
Qed.

Lemma unsupported_width_is_16_witness :
  call_additiveChecksum (js "A") (mkAdditiveOptions 24 0)
    = Returns (additiveChecksum (js "A") (mkAdditiveOptions 16 0))
  /\ (js "A" <> [] ->
      call_calculateChecksum (js "A") ADDITIVE (Some (mkAdditiveOptions 24 0))
        = Returns (additiveChecksum (js "A") (mkAdditiveOptions 16 0))).
Proof. apply (unsupported_width_is_16 (js "A") 24 0); lia. Defined.

(** ** Summation and masking *)

Lemma codeSum_nonneg (message : jsstring) : 0 <= codeSum message.
Proof.
  induction message as [| c m IH]; simpl; [lia |].
  unfold charCode. lia.
Qed.

(** Up to 2^53 an integer is a double. *)
Lemma roundMagnitude_exact (a : Z) : 0 <= a <= 2 ^ 53 -> roundMagnitude a = a.
Proof.
  intros Ha. unfold roundMagnitude.
  destruct (Z.leb_spec (Z.log2 a - 52) 0) as [_ | He]; [reflexivity |].
  assert (Hpos : 0 < a).
  { destruct (Z.eq_dec a 0) as [-> | ?]; [| lia]. simpl in He. lia. }
  destruct (Z.log2_spec a Hpos) as [Hlo _].
  assert (Hp : 2 ^ 53 <= 2 ^ Z.log2 a) by (apply Z.pow_le_mono_r; lia).
  assert (a = 2 ^ 53) by lia. subst a. vm_compute. reflexivity.
Qed.

Lemma toDouble_exact (z : Z) : - 2 ^ 53 <= z <= 2 ^ 53 -> toDouble z = Finite z.
Proof.
  intros Hz. unfold toDouble.
  rewrite roundMagnitude_exact by lia.
  assert (Hbig : 2 ^ 53 < 2 ^ 1024) by (apply Z.pow_lt_mono_r; lia).
  destruct (Z.leb_spec (2 ^ 1024) (Z.abs z)) as [? | _]; [lia |].
  f_equal. rewrite Z.mul_comm. apply Z.abs_sgn.
Qed.

(** While every sum is at most 2^53 in magnitude, the loop adds exactly. *)
Lemma sumLoop_exact (message : jsstring) (v : Z) :
  exactSum message v -> sumLoop message (Finite v) = Finite (v + codeSum message).
Proof.
  unfold sumLoop, exactSum. revert v.
  induction message as [| c m IH]; intros v [Hlo Hhi]; simpl.
  - f_equal. lia.
  - simpl in Hhi. pose proof (codeSum_nonneg m) as Hm.
    assert (Hc : 0 <= charCode c) by (unfold charCode; lia).
    rewrite toDouble_exact by lia.
    rewrite IH by lia. f_equal. lia.
Qed.

Lemma sumLoop_codeSum (message : jsstring) (v : Z) :
  exactSum message v ->
  sumLoop message (toDouble v) = Finite (v + codeSum message).
Proof.
  intros H. pose proof (codeSum_nonneg message) as Hm.
  rewrite toDouble_exact by (unfold exactSum in H; lia).
  now apply sumLoop_exact.
Qed.

Lemma maskedSum_exact (message : jsstring) (w v : Z) :
  exactSum message v ->
  maskedSum message (mkAdditiveOptions w v)
  = band (v + codeSum message) (maskOf w).
Proof.
  intros H. unfold maskedSum. simpl. now rewrite sumLoop_codeSum.
Qed.

Lemma ToInt32_congr (z : Z) : exists q, ToInt32 z = z + q * 2 ^ 32.
Proof.
  unfold ToInt32.
  pose proof (Z.div_mod z (2 ^ 32) ltac:(lia)) as E.
  destruct (2 ^ 31 <=? z mod 2 ^ 32).
  - exists (- (z / 2 ^ 32) - 1). lia.
  - exists (- (z / 2 ^ 32)). lia.
Qed.

Lemma ToInt32_mod (z : Z) (n : Z) :
  0 <= n <= 32 -> ToInt32 z mod 2 ^ n = z mod 2 ^ n.
Proof.
  intros Hn. destruct (ToInt32_congr z) as [q ->].
  replace (2 ^ 32) with (2 ^ (32 - n) * 2 ^ n)
    by (rewrite <- Z.pow_add_r by lia; f_equal; lia).
  rewrite Z.mul_assoc. apply Z.mod_add. lia.
Qed.

Lemma band_ones (s n : Z) :
  0 <= n < 32 -> band s (Z.ones n) = s mod 2 ^ n.
Proof.
  intros Hn. unfold band.
  assert (E : ToInt32 (Z.ones n) = Z.ones n).
  { unfold ToInt32.
    assert (0 <= Z.ones n < 2 ^ 31).
    { rewrite Z.ones_equiv.
      assert (0 < 2 ^ n) by (apply Z.pow_pos_nonneg; lia).
      assert (2 ^ n <= 2 ^ 31) by (apply Z.pow_le_mono_r; lia). lia. }
    rewrite Z.mod_small by lia.
    destruct (Z.leb_spec (2 ^ 31) (Z.ones n)); lia. }
  rewrite E, Z.land_ones by lia.
  apply ToInt32_mod. lia.
Qed.

Lemma band_all_ones (s : Z) : band s 0xFFFFFFFF = ToInt32 s.
Proof.
  unfold band. change (ToInt32 0xFFFFFFFF) with (-1).
  apply Z.land_m1_r.
Qed.

(** Modulo 2^bitWidth, the masked sum is initialValue plus the code units,
    for each of the three widths. *)
Lemma maskedSum_mod (message : jsstring) (w v : Z) :
  exactSum message v -> supported w ->
  maskedSum message (mkAdditiveOptions w v) mod 2 ^ w
  = (v + codeSum message) mod 2 ^ w.
Proof.
  intros He. rewrite maskedSum_exact by assumption.
  intros [-> | [-> | ->]].
  - change (maskOf 8) with (Z.ones 8). rewrite band_ones by lia.
    apply Z.mod_mod. lia.
  - change (maskOf 16) with (Z.ones 16). rewrite band_ones by lia.
    apply Z.mod_mod. lia.
  - change (maskOf 32) with 0xFFFFFFFF. rewrite band_all_ones.
    apply ToInt32_mod. lia.
Qed.

(** Below 32 bits the masked sum is the residue itself. *)
Lemma maskedSum_small (message : jsstring) (w v : Z) :
  exactSum message v -> w = 8 \/ w = 16 ->
  maskedSum message (mkAdditiveOptions w v) = (v + codeSum message) mod 2 ^ w.
Proof.
  intros He. rewrite maskedSum_exact by assumption.
  intros [-> | ->].
  - change (maskOf 8) with (Z.ones 8). now rewrite band_ones by lia.
  - change (maskOf 16) with (Z.ones 16). now rewrite band_ones by lia.
Qed.

(** At 32 bits it is the residue read as a signed integer. *)
Lemma maskedSum_32 (message : jsstring) (v : Z) :
  exactSum message v ->
  maskedSum message (mkAdditiveOptions 32 v) = ToInt32 (v + codeSum message).
Proof.
  intros He. rewrite maskedSum_exact by assumption.
  change (maskOf 32) with 0xFFFFFFFF. apply band_all_ones.
Qed.

(** ** Rendering in hexadecimal *)

Lemma upperUnit_hexDigit (d : Z) :
  0 <= d < 16 -> upperUnit (hexDigit d) = upperHexDigit d.
Proof.
  intros H.
  assert (C : d = 0 \/ d = 1 \/ d = 2 \/ d = 3 \/ d = 4 \/ d = 5 \/ d = 6 \/ d = 7
              \/ d = 8 \/ d = 9 \/ d = 10 \/ d = 11 \/ d = 12 \/ d = 13 \/ d = 14
              \/ d = 15) by lia.
  repeat (destruct C as [-> | C]); try subst d; reflexivity.
Qed.

Lemma toUpperCase_hexDigits (n : nat) (v : Z) :
  toUpperCase (hexDigits n v) = hexFixed n v.
Proof.
  revert v. induction n as [| k IH]; intros v; simpl; [reflexivity |].
  unfold toUpperCase in *. rewrite map_app, IH. simpl.
  now rewrite upperUnit_hexDigit by (apply Z.mod_pos_bound; lia).
Qed.

Lemma toUpperCase_cons (c : codeunit) (s : jsstring) :
  toUpperCase (c :: s) = upperUnit c :: toUpperCase s.
Proof. reflexivity. Qed.

Lemma length_hexFixed (n : nat) (v : Z) : length (hexFixed n v) = n.
Proof.
  revert v. induction n as [| k IH]; intros v; simpl; [reflexivity |].
  rewrite length_app, IH. simpl. lia.
Qed.

Lemma repeat_snoc {A} (x : A) (k : nat) : repeat x k ++ [x] = x :: repeat x k.
Proof. induction k as [| k IH]; simpl; [reflexivity | now rewrite IH]. Qed.

Lemma hexFixed_zero (k : nat) : hexFixed k 0 = repeat 48%N k.
Proof.
  induction k as [| k IH]; simpl; [reflexivity |].
  change (0 / 16) with 0. rewrite IH.
  change (upperHexDigit (0 mod 16)) with 48%N. apply repeat_snoc.
Qed.

(** Digits beyond the value's own are zeros on the left. *)
Lemma hexFixed_pad (n k : nat) (v : Z) :
  0 <= v < 16 ^ Z.of_nat n ->
  hexFixed (k + n) v = repeat 48%N k ++ hexFixed n v.
Proof.
  revert v. induction n as [| n IH]; intros v Hv.
  - simpl in Hv. assert (v = 0) by lia. subst v.
    rewrite Nat.add_0_r, hexFixed_zero. simpl. now rewrite app_nil_r.
  - rewrite Nat.add_succ_r. simpl.
    rewrite IH, app_assoc; [reflexivity |].
    rewrite Nat2Z.inj_succ, Z.pow_succ_r in Hv by lia.
    split; [apply Z.div_pos; lia |].
    apply Z.div_lt_upper_bound; lia.
Qed.

Lemma pow16 (n : Z) : 0 <= n -> 16 ^ n = 2 ^ (4 * n).
Proof. intros H. now rewrite Z.pow_mul_r by lia. Qed.

Lemma hexLength_enough (v : Z) : 0 <= v -> v < 16 ^ Z.of_nat (hexLength v).
Proof.
  intros Hv. unfold hexLength.
  assert (Hq : 0 <= Z.log2 v / 4) by (apply Z.div_pos; [apply Z.log2_nonneg | lia]).
  rewrite Nat2Z.inj_succ, Z2Nat.id by lia.
  rewrite pow16 by lia.
  destruct (Z.eq_dec v 0) as [-> | Hne].
  - apply Z.pow_pos_nonneg; lia.
  - destruct (Z.log2_spec v ltac:(lia)) as [_ Hlt].
    eapply Z.lt_le_trans; [exact Hlt |].
    apply Z.pow_le_mono_r; [lia |].
    pose proof (Z.div_mod (Z.log2 v) 4 ltac:(lia)).
    pose proof (Z.mod_pos_bound (Z.log2 v) 4 ltac:(lia)). lia.
Qed.

Lemma hexLength_bound (v : Z) (n : nat) :
  0 <= v < 16 ^ Z.of_nat n -> (1 <= n)%nat -> (hexLength v <= n)%nat.
Proof.
  intros Hv Hn. unfold hexLength.
  destruct (Z.eq_dec v 0) as [-> | Hne];
    [change (Z.to_nat (Z.log2 0 / 4)) with 0%nat; lia |].
  rewrite pow16 in Hv by lia.
  assert (Hl : Z.log2 v < 4 * Z.of_nat n) by (apply Z.log2_lt_pow2; lia).
  assert (Z.log2 v / 4 < Z.of_nat n) by (apply Z.div_lt_upper_bound; lia).
  assert (0 <= Z.log2 v / 4) by (apply Z.div_pos; [apply Z.log2_nonneg | lia]).
  lia.
Qed.

(** A value that fits in [n] hexadecimal digits is rendered on exactly [n]
    uppercase digits. *)
Lemma render_fits (v : Z) (n : nat) :
  0 <= v < 16 ^ Z.of_nat n -> (1 <= n)%nat ->
  padStart (toUpperCase (toString16 v)) n 48%N = hexFixed n v.
Proof.
  intros Hv Hn. unfold toString16, padStart.
  destruct (Z.ltb_spec v 0) as [? | _]; [lia |].
  rewrite toUpperCase_hexDigits, length_hexFixed.
  pose proof (hexLength_bound v n Hv Hn) as Hle.
  replace n with ((n - hexLength v) + hexLength v)%nat at 2 by lia.
  symmetry. apply hexFixed_pad.
  split; [lia | apply hexLength_enough; lia].
Qed.

(** While the sums are exact: on widths 8 and 16, and on width 32 while
    the residue stays below 2^31, [additiveChecksum] is the checksum of the
    specification. *)
Lemma additiveChecksum_refines (message : jsstring) (w v : Z) :
  exactSum message v ->
  w = 8 \/ w = 16 \/ (w = 32 /\ (v + codeSum message) mod 2 ^ 32 < 2 ^ 31) ->
  additiveChecksum message (mkAdditiveOptions w v)
  = specChecksum message (mkAdditiveOptions w v).
Proof.
  intros He Hw. unfold specChecksum. simpl.
  change (additiveChecksum message (mkAdditiveOptions w v))
    with (padStart (toUpperCase (toString16 (maskedSum message (mkAdditiveOptions w v))))
            (padOf w) 48%N).
  pose proof (Z.mod_pos_bound (v + codeSum message) (2 ^ w)) as Hb.
  destruct Hw as [-> | [-> | [-> Hlt]]].
  - change (Z.to_nat (8 / 4)) with 2%nat. change (padOf 8) with 2%nat.
    rewrite maskedSum_small by auto. apply render_fits; [| lia].
    change (16 ^ Z.of_nat 2) with (2 ^ 8). apply Hb. lia.
  - change (Z.to_nat (16 / 4)) with 4%nat. change (padOf 16) with 4%nat.
    rewrite maskedSum_small by auto. apply render_fits; [| lia].
    change (16 ^ Z.of_nat 4) with (2 ^ 16). apply Hb. lia.
  - change (Z.to_nat (32 / 4)) with 8%nat. change (padOf 32) with 8%nat.
    rewrite maskedSum_32 by assumption. unfold ToInt32.
    destruct (Z.leb_spec (2 ^ 31) ((v + codeSum message) mod 2 ^ 32)); [lia |].
    apply render_fits; [| lia].
    change (16 ^ Z.of_nat 8) with (2 ^ 32). apply Hb. lia.
Qed.

(** ** The number a checksum denotes *)

Lemma hexNat_app (s1 s2 : jsstring) (acc : Z) :
  hexNat acc (s1 ++ s2)
  = match hexNat acc s1 with Some a => hexNat a s2 | None => None end.
Proof.
  revert acc. induction s1 as [| c s1 IH]; intros acc; simpl; [reflexivity |].
  destruct (hexDigitValue c); [apply IH | reflexivity].
Qed.

Lemma hexDigitValue_upper (d : Z) :
  0 <= d < 16 -> hexDigitValue (upperHexDigit d) = Some d.
Proof.
  intros H.
  assert (C : d = 0 \/ d = 1 \/ d = 2 \/ d = 3 \/ d = 4 \/ d = 5 \/ d = 6 \/ d = 7
              \/ d = 8 \/ d = 9 \/ d = 10 \/ d = 11 \/ d = 12 \/ d = 13 \/ d = 14
              \/ d = 15) by lia.
  repeat (destruct C as [-> | C]); try subst d; reflexivity.
Qed.

Lemma hexNat_hexFixed (n : nat) (v acc : Z) :
  hexNat acc (hexFixed n v)
  = Some (acc * 16 ^ Z.of_nat n + v mod 16 ^ Z.of_nat n).
Proof.
  revert v acc. induction n as [| n IH]; intros v acc.
  - simpl. f_equal. rewrite Z.mod_1_r. lia.
  - simpl hexFixed. rewrite hexNat_app, IH. simpl hexNat.
    rewrite hexDigitValue_upper by (apply Z.mod_pos_bound; lia).
    f_equal. rewrite Nat2Z.inj_succ, Z.pow_succ_r by lia.
    rewrite (Z.rem_mul_r v 16 (16 ^ Z.of_nat n)) by lia.
    lia.
Qed.

Lemma hexNat_zeros (k : nat) (s : jsstring) :
  hexNat 0 (repeat 48%N k ++ s) = hexNat 0 s.
Proof. induction k as [| k IH]; simpl; [reflexivity | exact IH]. Qed.

Lemma hexNat_minus (s1 s2 : jsstring) (acc : Z) :
  hexNat acc (s1 ++ 45%N :: s2) = None.
Proof.
  rewrite hexNat_app. destruct (hexNat acc s1); reflexivity.
Qed.

Lemma hexMagnitude_hexNat (s : jsstring) (x : Z) :
  hexMagnitude s = Some x -> hexNat 0 s = Some x.
Proof. destruct s; [discriminate | auto]. Qed.

Lemma hexValue_digits (s : jsstring) (m : Z) :
  s <> [] -> hexNat 0 s = Some m -> hexValue s = Some m.
Proof.
  destruct s as [| c s]; [contradiction |]. intros _ H. unfold hexValue.
  destruct (N.eqb_spec c 45) as [-> | _]; [discriminate H | exact H].
Qed.

Lemma hexFixed_nonempty (n : nat) (v : Z) : (1 <= n)%nat -> hexFixed n v <> [].
Proof.
  intros Hn E. apply (f_equal (@length _)) in E.
  rewrite length_hexFixed in E. simpl in E. lia.
Qed.

(** The rendering of a non-negative number denotes that number. *)
Lemma hexValue_render_nonneg (v : Z) (n : nat) :
  0 <= v -> hexValue (padStart (toUpperCase (toString16 v)) n 48%N) = Some v.
Proof.
  intros Hv. unfold toString16, padStart.
  destruct (Z.ltb_spec v 0) as [? | _]; [lia |].
  rewrite toUpperCase_hexDigits.
  apply hexValue_digits.
  - intros E. apply app_eq_nil in E as [_ E].
    revert E. apply hexFixed_nonempty. unfold hexLength. lia.
  - rewrite hexNat_zeros, hexNat_hexFixed. f_equal.
    rewrite Z.mod_small; [lia |].
    split; [lia | now apply hexLength_enough].
Qed.

(** Whenever the rendering of a number denotes a number, it is that one. *)
Lemma hexValue_render (v m : Z) (n : nat) :
  hexValue (padStart (toUpperCase (toString16 v)) n 48%N) = Some m -> m = v.
Proof.
  destruct (Z.le_gt_cases 0 v) as [Hv | Hv].
  - rewrite hexValue_render_nonneg by assumption. congruence.
  - unfold toString16, padStart.
    destruct (Z.ltb_spec v 0) as [_ | ?]; [| lia].
    rewrite toUpperCase_cons, toUpperCase_hexDigits.
    change (upperUnit 45) with 45%N.
    set (D := hexFixed (hexLength (- v)) (- v)).
    assert (HD : hexNat 0 D = Some (- v)).
    { unfold D. rewrite hexNat_hexFixed, Z.mod_small; [f_equal; lia |].
      split; [lia | apply hexLength_enough; lia]. }
    clearbody D.
    destruct (n - length (45%N :: D))%nat as [| k]; simpl.
    + intros H.
      destruct (hexMagnitude D) as [x |] eqn:E; [| discriminate].
      apply hexMagnitude_hexNat in E. rewrite HD in E.
      simpl in H. injection E as E. injection H as H. lia.
    + change (hexDigitValue 48%N) with (Some 0). simpl.
      now rewrite hexNat_minus.
Qed.

Lemma additiveChecksum_render (message : jsstring) (options : AdditiveOptions) :
  additiveChecksum message options
  = padStart (toUpperCase (toString16 (maskedSum message options)))
      (padOf (bitWidth options)) 48%N.
Proof. reflexivity. Qed.

(** While the sums are exact, on widths 8 and 16 the checksum denotes the
    residue of the sum. *)
Lemma hexValue_additiveChecksum (message : jsstring) (w v : Z) :
  exactSum message v -> w = 8 \/ w = 16 ->
  hexValue (additiveChecksum message (mkAdditiveOptions w v))
  = Some ((v + codeSum message) mod 2 ^ w).
Proof.
  intros He Hw. rewrite additiveChecksum_render, maskedSum_small by assumption.
  apply hexValue_render_nonneg.
  apply Z.mod_pos_bound. destruct Hw as [-> | ->]; lia.
Qed.

(** ** The checksum claims *)

(** The examples of the specification that the code meets. *)
Lemma additiveChecksum_examples :
  additiveChecksum (js "A") (mkAdditiveOptions 16 0) = js "0041"
  /\ codeSum (js "AAA=") = 256
  /\ additiveChecksum (js "AAA=") (mkAdditiveOptions 8 0) = js "00"
  /\ codeSum (js "AAA>") = 257
  /\ additiveChecksum (js "AAA>") (mkAdditiveOptions 8 0) = js "01".
Proof. repeat split; vm_compute; reflexivity. Qed.

(** C4. While the sums are exact the claim holds on widths 8 and 16
    ([additiveChecksum_refines]), but not on width 32: [&] gives a signed 32-bit integer, so once the low
    32 bits of the sum reach 2^31 the result is negative and the string is
    a minus sign and digits, where the claim has 8 hexadecimal digits. *)
Theorem additiveChecksum_32_is_signed :
  additiveChecksum (js "A") (mkAdditiveOptions 32 0x7FFFFFFF) = js "-7FFFFFC0"
  /\ specChecksum (js "A") (mkAdditiveOptions 32 0x7FFFFFFF) = js "80000040"
  /\ additiveChecksum (js "A") (mkAdditiveOptions 32 0xFFFFFFBE) = js "000000-1"
  /\ specChecksum (js "A") (mkAdditiveOptions 32 0xFFFFFFBE) = js "FFFFFFFF".
Proof. repeat split; vm_compute; reflexivity. Qed.

(** C5, amended. For the empty message [additiveChecksum] returns the
    masked and formatted initial value: for an initial value of magnitude
    at most 2^53, on 8 and 16 bits, and on 32 bits when its low 32 bits are
    below 2^31, the bitWidth/4 hexadecimal digits of initialValue mod
    2^bitWidth ("0000", "00" and "00000000" for the initial value 0 on 16,
    8 and 32 bits); the exported [calculateChecksum] returns the empty
    string. *)
Theorem empty_message_checksum :
  additiveChecksum (js "") (mkAdditiveOptions 16 0) = js "0000"
  /\ additiveChecksum (js "") (mkAdditiveOptions 8 0) = js "00"
  /\ additiveChecksum (js "") (mkAdditiveOptions 32 0) = js "00000000"
  /\ (forall w v, - 2 ^ 53 <= v <= 2 ^ 53 ->
        w = 8 \/ w = 16 \/ (w = 32 /\ v mod 2 ^ 32 < 2 ^ 31) ->
        additiveChecksum (js "") (mkAdditiveOptions w v)
        = hexFixed (Z.to_nat (w / 4)) (v mod 2 ^ w))
  /\ (forall algorithm additiveOptions,
        calculateChecksum (js "") algorithm additiveOptions = js "").
Proof.
  split; [vm_compute; reflexivity |].
  split; [vm_compute; reflexivity |].
  split; [vm_compute; reflexivity |].
  split; [| reflexivity].
  intros w v Hv Hw.
  assert (He : exactSum (js "") v) by (unfold exactSum; simpl; lia).
  rewrite (additiveChecksum_refines (js "") w v He).
  - unfold specChecksum. simpl. now rewrite Z.add_0_r.
  - simpl codeSum. rewrite Z.add_0_r. exact Hw.
Qed.

Lemma empty_message_checksum_witness :
  additiveChecksum (js "") (mkAdditiveOptions 16 0x1FFFF)
  = hexFixed (Z.to_nat (16 / 4)) (0x1FFFF mod 2 ^ 16).
Proof.
  apply (proj1 (proj2 (proj2 (proj2 empty_message_checksum)))); lia.
Defined.

(** C8, as stated, fails: from 2^53 on the sum is rounded.  For the message
    "A" on 16 bits the checksum is 0x41 with the initial value 0 and 0x40
    with the initial value 2^53, where the claim has 0x41 again. *)
Lemma shift_lost_above_2_53 :
  hexValue (additiveChecksum (js "A") (mkAdditiveOptions 16 0)) = Some 0x41
  /\ hexValue (additiveChecksum (js "A") (mkAdditiveOptions 16 (2 ^ 53)))
     = Some 0x40
  /\ 0x40 <> (0x41 + (2 ^ 53 - 0)) mod 2 ^ 16.
Proof.
  split; [vm_compute; reflexivity |].
  split; [vm_compute; reflexivity |].
  vm_compute. discriminate.
Qed.

(** While the sums are exact, on width 32 the checksum denotes the residue
    of the sum when that is below 2^31. *)
Lemma hexValue_additiveChecksum_32 (message : jsstring) (v : Z) :
  exactSum message v -> (v + codeSum message) mod 2 ^ 32 < 2 ^ 31 ->
  hexValue (additiveChecksum message (mkAdditiveOptions 32 v))
  = Some ((v + codeSum message) mod 2 ^ 32).
Proof.
  intros He Hlt. rewrite additiveChecksum_render, maskedSum_32 by assumption.
  unfold ToInt32.
  destruct (Z.leb_spec (2 ^ 31) ((v + codeSum message) mod 2 ^ 32)); [lia |].
  apply hexValue_render_nonneg. apply Z.mod_pos_bound. lia.
Qed.

(** C8, amended. For a fixed message, a width of 8, 16 or 32 and two
    initial values for which the sums are exact (the initial value is at
    least -2^53 and the initial value plus the code units at most 2^53),
    and on 32 bits while the low 32 bits of both sums are below 2^31, both
    checksums are hexadecimal numerals and the value of the one for v2 is
    the value of the one for v1 plus (v2 - v1), modulo 2^bitWidth. *)
Theorem initialValue_shifts_checksum (message : jsstring) (w v1 v2 : Z) :
  supported w -> exactSum message v1 -> exactSum message v2 ->
  (w = 32 -> (v1 + codeSum message) mod 2 ^ 32 < 2 ^ 31
             /\ (v2 + codeSum message) mod 2 ^ 32 < 2 ^ 31) ->
  exists m1 m2,
    hexValue (additiveChecksum message (mkAdditiveOptions w v1)) = Some m1
    /\ hexValue (additiveChecksum message (mkAdditiveOptions w v2)) = Some m2
    /\ m2 = (m1 + (v2 - v1)) mod 2 ^ w.
Proof.
  intros Hw He1 He2 H32.
  exists ((v1 + codeSum message) mod 2 ^ w), ((v2 + codeSum message) mod 2 ^ w).
  assert (Hshift : (v2 + codeSum message) mod 2 ^ w
                   = ((v1 + codeSum message) mod 2 ^ w + (v2 - v1)) mod 2 ^ w)
    by (rewrite Zplus_mod_idemp_l; f_equal; lia).
  destruct Hw as [-> | [-> | ->]].
  - rewrite !hexValue_additiveChecksum by auto. auto.
  - rewrite !hexValue_additiveChecksum by auto. auto.
  - destruct (H32 eq_refl) as [H1 H2].
    rewrite !hexValue_additiveChecksum_32 by assumption. auto.
Qed.

Lemma initialValue_shifts_checksum_witness :
  exists m1 m2,
    hexValue (additiveChecksum (js "A") (mkAdditiveOptions 16 0)) = Some m1
    /\ hexValue (additiveChecksum (js "A") (mkAdditiveOptions 16 0xFFFF)) = Some m2
    /\ m2 = (m1 + (0xFFFF - 0)) mod 2 ^ 16.
Proof.
  apply (initialValue_shifts_checksum (js "A") 16 0 0xFFFF).
  - unfold supported. lia.
  - unfold exactSum. simpl. lia.
  - unfold exactSum. simpl. lia.
  - intros H. discriminate H.
Defined.

Lemma codec_checks_are_the_callers_witness :
  App.runHamming (App.mkState (js "101") None) = App.mkState (js "101") None.
Proof.
  apply (proj1 (proj2 (proj2 codec_checks_are_the_callers))).
  vm_compute. lia.
Defined.

(** * Further properties of the code *)

(** ** Reading and writing arrays *)

Lemma isArrayIndex_nonneg (i : Z) : isArrayIndex i = true -> 0 <= i.
Proof.
  unfold isArrayIndex. intros H. apply andb_true_iff in H as [H _]. lia.
Qed.

Lemma aget_app_l {A} (a e : list (option A)) (j : Z) :
  (Z.to_nat j < length a)%nat -> aget (a ++ e) j = aget a j.
Proof.
  intros H. unfold aget. destruct (isArrayIndex j); [| reflexivity].
  now rewrite lookup_app_l.
Qed.

Lemma aget_past_end {A} (a : list (option A)) (j : Z) :
  (length a <= Z.to_nat j)%nat -> aget a j = None.
Proof.
  intros H. unfold aget. destruct (isArrayIndex j); [| reflexivity].
  now rewrite lookup_ge_None_2.
Qed.

(** A read after a write sees the written value at the written index and
    the old value elsewhere, also when the write extends the array. *)
Lemma aget_aset {A} (a : list (option A)) (i j : Z) (v : option A) :
  isArrayIndex j = true ->
  aget (aset a i v) j = if i =? j then v else aget a j.
Proof.
  intros Hj. pose proof (isArrayIndex_nonneg j Hj) as Hj0.
  unfold aset. destruct (isArrayIndex i) eqn:Hi.
  - pose proof (isArrayIndex_nonneg i Hi) as Hi0.
    unfold aget. rewrite Hj.
    destruct (Nat.ltb_spec (Z.to_nat i) (length a)) as [Hlt | Hge].
    + destruct (Z.eqb_spec i j) as [-> | Hne].
      * now rewrite list_lookup_insert_eq.
      * rewrite list_lookup_insert_ne by lia. reflexivity.
    + destruct (Z.eqb_spec i j) as [-> | Hne].
      * rewrite lookup_app_r by lia.
        rewrite lookup_app_r by (rewrite length_replicate; lia).
        rewrite length_replicate.
        replace (Z.to_nat j - length a - (Z.to_nat j - length a))%nat with 0%nat by lia.
        reflexivity.
      * destruct (Nat.lt_ge_cases (Z.to_nat j) (length a)) as [Hjl | Hjl].
        { now rewrite lookup_app_l. }
        rewrite (lookup_ge_None_2 a) by lia.
        rewrite lookup_app_r by lia.
        destruct (Nat.lt_ge_cases (Z.to_nat j - length a) (Z.to_nat i - length a))
          as [Hr | Hr].
        { rewrite lookup_app_l by (rewrite length_replicate; lia).
          now rewrite lookup_replicate_2 by lia. }
        rewrite lookup_app_r by (rewrite length_replicate; lia).
        rewrite length_replicate.
        rewrite lookup_ge_None_2; [reflexivity |]. simpl. lia.
  - destruct (Z.eqb_spec i j) as [-> | _]; [congruence | reflexivity].
Qed.

Lemma num_add_NaN_r (x : jsnum) : num_add x NaN = NaN.
Proof. now destruct x. Qed.

Lemma parity4_undefined (a b c : jsval) : Hamming.parity4 a b c None = NaN.
Proof.
  unfold Hamming.parity4, val_add. simpl ToNumber. now rewrite num_add_NaN_r.
Qed.

Lemma parity_undefined (a b : jsval) : Hamming.parity a b None = NaN.
Proof.
  unfold Hamming.parity, val_add. simpl ToNumber. now rewrite num_add_NaN_r.
Qed.

(** ** The codec beyond single errors and beyond well-formed input *)

(** X1. Every 7-character binary word is decoded to a 4-character binary
    payload whose codeword is the word itself when no error position is
    reported, and the word with the reported position (1..7) flipped
    otherwise: the codeword of the result is never more than one bit
    away. *)
Theorem decode_nearest_codeword (r : jsstring) :
  validCodeword r = true ->
  let res := Hamming.decode r in
  validPayload (Hamming.corrected res) = true
  /\ (distance r (Hamming.encode (Hamming.corrected res)) <= 1)%nat
  /\ match Hamming.errorPos res with
     | None => Hamming.encode (Hamming.corrected res) = r
     | Some (Num k) =>
         1 <= k <= 7
         /\ Hamming.encode (Hamming.corrected res) = App.flipReceived r (k - 1)
     | Some NaN => False
     end.
Proof.
  unfold validCodeword. intros H. apply andb_true_iff in H as [Hb Hl].
  apply Nat.eqb_eq in Hl.
  destruct (binary7 r Hb Hl) as (b0 & b1 & b2 & b3 & b4 & b5 & b6 & ->).
  each_bit; vm_compute; repeat split; try discriminate; auto.
Qed.

Lemma decode_nearest_codeword_witness :
  let res := Hamming.decode (js "0110111") in
  validPayload (Hamming.corrected res) = true
  /\ (distance (js "0110111") (Hamming.encode (Hamming.corrected res)) <= 1)%nat
  /\ match Hamming.errorPos res with
     | None => Hamming.encode (Hamming.corrected res) = js "0110111"
     | Some (Num k) =>
         1 <= k <= 7
         /\ Hamming.encode (Hamming.corrected res)
            = App.flipReceived (js "0110111") (k - 1)
     | Some NaN => False
     end.
Proof. apply (decode_nearest_codeword (js "0110111")). reflexivity. Defined.

(** X2. The codewords of two different payloads differ in at least three
    positions. *)
Theorem codewords_three_apart (d1 d2 : jsstring) :
  validPayload d1 = true -> validPayload d2 = true -> d1 <> d2 ->
  (3 <= distance (Hamming.encode d1) (Hamming.encode d2))%nat.
Proof.
  unfold validPayload. intros H1 H2 Hne.
  apply andb_true_iff in H1 as [Hb1 Hl1]. apply Nat.eqb_eq in Hl1.
  apply andb_true_iff in H2 as [Hb2 Hl2]. apply Nat.eqb_eq in Hl2.
  destruct (binary4 d1 Hb1 Hl1) as (a0 & a1 & a2 & a3 & ->).
  destruct (binary4 d2 Hb2 Hl2) as (c0 & c1 & c2 & c3 & ->).
  clear Hb1 Hl1 Hb2 Hl2.
  each_bit; first [exfalso; apply Hne; reflexivity | vm_compute; lia].
Qed.

Lemma codewords_three_apart_witness :
  (3 <= distance (Hamming.encode (js "1011")) (Hamming.encode (js "1010")))%nat.
Proof.
  apply (codewords_three_apart (js "1011") (js "1010"));
    [reflexivity | reflexivity | discriminate].
Defined.

(** X3. Two flipped bits are not recognised: after flipping two different
    positions of a codeword, [decode] reports a third position and returns
    a payload that is not the one encoded. *)
Theorem double_error_miscorrected (d : jsstring) (i j : Z) :
  validPayload d = true -> 0 <= i -> i < j -> j <= 6 ->
  let res :=
    Hamming.decode (App.flipReceived (App.flipReceived (Hamming.encode d) i) j) in
  Hamming.corrected res <> d
  /\ match Hamming.errorPos res with
     | Some (Num k) => 1 <= k <= 7 /\ k <> i + 1 /\ k <> j + 1
     | _ => False
     end.
Proof.
  unfold validPayload. intros H Hi Hij Hj.
  apply andb_true_iff in H as [Hb Hl]. apply Nat.eqb_eq in Hl.
  destruct (binary4 d Hb Hl) as (b0 & b1 & b2 & b3 & ->). clear Hb Hl.
  assert (Ci : i = 0 \/ i = 1 \/ i = 2 \/ i = 3 \/ i = 4 \/ i = 5) by lia.
  assert (Cj : j = 1 \/ j = 2 \/ j = 3 \/ j = 4 \/ j = 5 \/ j = 6) by lia.
  repeat (destruct Ci as [-> | Ci]); try subst i;
    repeat (destruct Cj as [-> | Cj]); try subst j;
    try (exfalso; lia); clear Hi Hij Hj;
    each_bit; vm_compute; repeat split; discriminate.
Qed.

Lemma double_error_miscorrected_witness :
  let res :=
    Hamming.decode
      (App.flipReceived (App.flipReceived (Hamming.encode (js "1011")) 0) 1) in
  Hamming.corrected res <> js "1011"
  /\ match Hamming.errorPos res with
     | Some (Num k) => 1 <= k <= 7 /\ k <> 0 + 1 /\ k <> 1 + 1
     | _ => False
     end.
Proof.
  apply (double_error_miscorrected (js "1011") 0 1); [reflexivity | lia | lia | lia].
Defined.

(** X4. [encode] reads the first four characters only: whatever follows them
    is dropped without notice. *)
Theorem encode_ignores_excess (d extra : jsstring) :
  length d = 4%nat -> Hamming.encode (d ++ extra) = Hamming.encode d.
Proof.
  intros Hl.
  destruct d as [| c0 [| c1 [| c2 [| c3 [| ? ?]]]]]; try discriminate.
  reflexivity.
Qed.

Lemma encode_ignores_excess_witness :
  Hamming.encode (js "1011" ++ js "2?") = Hamming.encode (js "1011").
Proof. apply (encode_ignores_excess (js "1011") (js "2?")). reflexivity. Defined.

(** X5. On a string of fewer than 7 characters [decode] neither fails nor
    reports "no error": the error position it returns is [NaN]. *)
Theorem decode_short_input (s : jsstring) :
  (length s < 7)%nat -> Hamming.errorPos (Hamming.decode s) = Some NaN.
Proof.
  intros Hl.
  assert (H6 : aget (Hamming.numbers s) 6 = None).
  { apply aget_past_end. unfold Hamming.numbers. rewrite length_fmap.
    change (Z.to_nat 6) with 6%nat. lia. }
  unfold Hamming.decode. cbv zeta. simpl Hamming.errorPos.
  rewrite H6, !parity4_undefined. reflexivity.
Qed.

Lemma decode_short_input_witness :
  Hamming.errorPos (Hamming.decode (js "011001")) = Some NaN.
Proof. apply (decode_short_input (js "011001")). simpl. lia. Defined.

(** X6. [decode] reads the first seven characters only. *)
Theorem decode_ignores_excess (c extra : jsstring) :
  length c = 7%nat -> Hamming.decode (c ++ extra) = Hamming.decode c.
Proof.
  intros Hl.
  assert (Hn : Hamming.numbers (c ++ extra)
               = Hamming.numbers c ++ Hamming.numbers extra)
    by (unfold Hamming.numbers; apply fmap_app).
  assert (Hlen : length (Hamming.numbers c) = 7%nat)
    by (unfold Hamming.numbers; now rewrite length_fmap).
  unfold Hamming.decode. cbv zeta. rewrite Hn.
  set (b := Hamming.numbers c) in *. set (e := Hamming.numbers extra).
  assert (Hget : forall j, 0 <= j <= 6 -> aget (b ++ e) j = aget b j).
  { intros j Hj. apply aget_app_l. lia. }
  rewrite !Hget by lia.
  set (E := num_add _ _).
  assert (Hread : forall j, 0 <= j <= 6 ->
            aget (if negb (strictEqZ (Some E) 0)
                  then aset_num (b ++ e) (num_sub E (Num 1))
                         (if strictEqZ (aget_num (b ++ e) (num_sub E (Num 1))) 0
                          then Some (Num 1) else Some (Num 0))
                  else b ++ e) j
            = aget (if negb (strictEqZ (Some E) 0)
                    then aset_num b (num_sub E (Num 1))
                           (if strictEqZ (aget_num b (num_sub E (Num 1))) 0
                            then Some (Num 1) else Some (Num 0))
                    else b) j).
  { intros j Hj.
    assert (Hidx : isArrayIndex j = true)
      by (unfold isArrayIndex; apply andb_true_iff; split; lia).
    destruct (negb (strictEqZ (Some E) 0)); [| now apply Hget].
    destruct (num_sub E (Num 1)) as [k |]; simpl aset_num; simpl aget_num;
      [| now apply Hget].
    rewrite !aget_aset by assumption.
    destruct (Z.eqb_spec k j) as [-> | _]; [| now apply Hget].
    now rewrite Hget. }
  rewrite !Hread by lia. reflexivity.
Qed.

Lemma decode_ignores_excess_witness :
  Hamming.decode (js "0110111" ++ js "01") = Hamming.decode (js "0110111").
Proof. apply (decode_ignores_excess (js "0110111") (js "01")). reflexivity. Defined.

(** ** The Hamming handlers together *)

(** X7. From a 4-character binary input, [runHamming] followed by one
    [flipBit] at an index 0..6 shows the input as the corrected payload and
    the clicked position (index + 1) as the error position; the encoded
    codeword is kept. *)
Theorem runHamming_then_flipBit (st : App.State) (i : Z) :
  validPayload (App.hammingInput st) = true -> 0 <= i <= 6 ->
  App.hammingResult (App.flipBit i (App.runHamming st))
  = Some {| original := App.hammingInput st;
            encoded := Hamming.encode (App.hammingInput st);
            received := App.flipReceived (Hamming.encode (App.hammingInput st)) i;
            corrected := App.hammingInput st;
            errorPosition := Some (Num (i + 1)) |}.
Proof.
  destruct st as [input res0]. simpl App.hammingInput.
  unfold validPayload. intros H Hi.
  apply andb_true_iff in H as [Hb Hl]. apply Nat.eqb_eq in Hl.
  destruct (binary4 input Hb Hl) as (b0 & b1 & b2 & b3 & ->). clear Hb Hl.
  assert (Ci : i = 0 \/ i = 1 \/ i = 2 \/ i = 3 \/ i = 4 \/ i = 5 \/ i = 6) by lia.
  repeat (destruct Ci as [-> | Ci]); try subst i;
    each_bit; vm_compute; reflexivity.
Qed.

Lemma runHamming_then_flipBit_witness :
  App.hammingResult (App.flipBit 2 (App.runHamming App.initialState))
  = Some {| original := js "1011";
            encoded := Hamming.encode (js "1011");
            received := App.flipReceived (Hamming.encode (js "1011")) 2;
            corrected := js "1011";
            errorPosition := Some (Num (2 + 1)) |}.
Proof.
  apply (runHamming_then_flipBit App.initialState 2); [reflexivity | lia].
Defined.

(** X8. Clicking the same bit twice brings back the state [runHamming] left:
    the received codeword is the encoded one again and no error position is
    shown. *)
Theorem flipBit_twice_restores (st : App.State) (i : Z) :
  validPayload (App.hammingInput st) = true -> 0 <= i <= 6 ->
  App.flipBit i (App.flipBit i (App.runHamming st)) = App.runHamming st.
Proof.
  destruct st as [input res0]. simpl App.hammingInput.
  unfold validPayload. intros H Hi.
  apply andb_true_iff in H as [Hb Hl]. apply Nat.eqb_eq in Hl.
  destruct (binary4 input Hb Hl) as (b0 & b1 & b2 & b3 & ->). clear Hb Hl.
  assert (Ci : i = 0 \/ i = 1 \/ i = 2 \/ i = 3 \/ i = 4 \/ i = 5 \/ i = 6) by lia.
  repeat (destruct Ci as [-> | Ci]); try subst i;
    each_bit; vm_compute; reflexivity.
Qed.

Lemma flipBit_twice_restores_witness :
  App.flipBit 6 (App.flipBit 6 (App.runHamming App.initialState))
  = App.runHamming App.initialState.
Proof.
  apply (flipBit_twice_restores App.initialState 6); [reflexivity | lia].
Defined.

(** X9. The input filter changes a text exactly when the text has a character
    other than '0' and '1', and filtering twice is filtering once. *)
Theorem stripNonBinary_fixes_binary (value : jsstring) :
  (App.stripNonBinary value = value <-> isBinary value = true)
  /\ App.stripNonBinary (App.stripNonBinary value) = App.stripNonBinary value.
Proof.
  assert (Hfix : forall v, isBinary v = true -> App.stripNonBinary v = v).
  { unfold App.stripNonBinary, isBinary.
    induction v as [| c v IH]; simpl; [reflexivity |].
    intros H. apply andb_true_iff in H as [Hc Hv]. rewrite Hc.
    now rewrite IH. }
  split; [split |].
  - intros E. rewrite <- E. apply stripNonBinary_isBinary.
  - apply Hfix.
  - apply Hfix, stripNonBinary_isBinary.
Qed.

(** ** What the additive checksum sees of a message *)

Lemma codeSum_app (a b : jsstring) : codeSum (a ++ b) = codeSum a + codeSum b.
Proof. induction a as [| c a IH]; simpl; [reflexivity | rewrite IH; lia]. Qed.

Lemma codeSum_Permutation (a b : jsstring) :
  Permutation a b -> codeSum a = codeSum b.
Proof.
  induction 1 as [| c a b _ IH | c c' a | a b d _ IH1 _ IH2]; simpl; lia.
Qed.

(** While the sums are exact, the checksum is a function of the width and
    of initialValue plus the sum of the code units. *)
Lemma additiveChecksum_of_sum (message : jsstring) (w v : Z) :
  exactSum message v ->
  additiveChecksum message (mkAdditiveOptions w v)
  = padStart (toUpperCase (toString16 (band (v + codeSum message) (maskOf w))))
      (padOf w) 48%N.
Proof.
  intros He. rewrite additiveChecksum_render. now rewrite maskedSum_exact.
Qed.

Lemma hexFixed_digit (n : nat) (v : Z) (c : codeunit) :
  In c (hexFixed n v) -> exists d, 0 <= d < 16 /\ c = upperHexDigit d.
Proof.
  revert v. induction n as [| n IH]; intros v; simpl; [contradiction |].
  intros H. apply in_app_or in H as [H | [<- | []]].
  - now apply (IH (v / 16)).
  - exists (v mod 16). split; [apply Z.mod_pos_bound; lia | reflexivity].
Qed.

Lemma hexNat_dropZeros (s : jsstring) : hexNat 0 (dropZeros s) = hexNat 0 s.
Proof.
  induction s as [| c s IH]; simpl; [reflexivity |].
  destruct (N.eqb_spec c 48) as [-> | _]; [exact IH | reflexivity].
Qed.

Lemma dropZeros_zeros (k : nat) (s : jsstring) :
  dropZeros (repeat 48%N k ++ s) = dropZeros s.
Proof. induction k as [| k IH]; simpl; [reflexivity | exact IH]. Qed.

(** The rendering of a number, padded or not, is read back as that number:
    two different numbers are never rendered alike. *)
Lemma paddedValue_render (v : Z) (n : nat) :
  paddedValue (padStart (toUpperCase (toString16 v)) n 48%N) = v.
Proof.
  unfold toString16, padStart, paddedValue.
  destruct (Z.ltb_spec v 0) as [Hv | Hv].
  - rewrite toUpperCase_cons, toUpperCase_hexDigits, dropZeros_zeros.
    change (upperUnit 45) with 45%N.
    set (D := hexFixed (hexLength (- v)) (- v)).
    assert (HD : digitsValue D = - v).
    { unfold digitsValue, D. rewrite hexNat_hexFixed, Z.mod_small; [lia |].
      split; [lia | apply hexLength_enough; lia]. }
    clearbody D. simpl. lia.
  - rewrite toUpperCase_hexDigits, dropZeros_zeros.
    set (D := hexFixed (hexLength v) v).
    assert (HD : hexNat 0 (dropZeros D) = Some v).
    { rewrite hexNat_dropZeros. unfold D.
      rewrite hexNat_hexFixed, Z.mod_small; [f_equal; lia |].
      split; [lia | now apply hexLength_enough]. }
    destruct (dropZeros D) as [| c t] eqn:E.
    + simpl in HD. now injection HD.
    + destruct (N.eqb_spec c 45) as [-> | _]; [discriminate HD |].
      unfold digitsValue. now rewrite HD.
Qed.

Lemma render_injective (v1 v2 : Z) (n : nat) :
  padStart (toUpperCase (toString16 v1)) n 48%N
  = padStart (toUpperCase (toString16 v2)) n 48%N ->
  v1 = v2.
Proof.
  intros H. rewrite <- (paddedValue_render v1 n), <- (paddedValue_render v2 n).
  now rewrite H.
Qed.

Lemma ToInt32_eq_iff (a b : Z) :
  ToInt32 a = ToInt32 b <-> a mod 2 ^ 32 = b mod 2 ^ 32.
Proof.
  split; intros H.
  - rewrite <- (ToInt32_mod a 32), <- (ToInt32_mod b 32) by lia. now rewrite H.
  - unfold ToInt32. now rewrite H.
Qed.

Lemma band_mask_eq_iff (a b w : Z) :
  supported w ->
  band a (maskOf w) = band b (maskOf w) <-> a mod 2 ^ w = b mod 2 ^ w.
Proof.
  intros [-> | [-> | ->]].
  - change (maskOf 8) with (Z.ones 8). rewrite !band_ones by lia. reflexivity.
  - change (maskOf 16) with (Z.ones 16). rewrite !band_ones by lia. reflexivity.
  - change (maskOf 32) with 0xFFFFFFFF. rewrite !band_all_ones.
    apply ToInt32_eq_iff.
Qed.

Lemma mod_add_cancel_l (v a b n : Z) :
  0 < n -> ((v + a) mod n = (v + b) mod n <-> a mod n = b mod n).
Proof.
  intros Hn. split; intros H.
  - assert (Ha : a mod n = ((v + a) mod n - v) mod n)
      by (rewrite Zminus_mod_idemp_l; f_equal; lia).
    assert (Hb : b mod n = ((v + b) mod n - v) mod n)
      by (rewrite Zminus_mod_idemp_l; f_equal; lia).
    now rewrite Ha, Hb, H.
  - rewrite (Zplus_mod v a), (Zplus_mod v b). now rewrite H.
Qed.

(** Same options and exact sums: two messages get the same checksum
    exactly when their code-unit sums agree modulo 2^bitWidth. *)
Lemma same_checksum_iff (m1 m2 : jsstring) (w v : Z) :
  supported w -> exactSum m1 v -> exactSum m2 v ->
  additiveChecksum m1 (mkAdditiveOptions w v)
  = additiveChecksum m2 (mkAdditiveOptions w v)
  <-> codeSum m1 mod 2 ^ w = codeSum m2 mod 2 ^ w.
Proof.
  intros Hw He1 He2.
  assert (Hpos : 0 < 2 ^ w) by (destruct Hw as [-> | [-> | ->]]; lia).
  rewrite !additiveChecksum_of_sum by assumption.
  rewrite <- (mod_add_cancel_l v _ _ _ Hpos), <- (band_mask_eq_iff _ _ w Hw).
  split; [apply render_injective | now intros ->].
Qed.

Lemma additiveChecksum_length (message : jsstring) (o : AdditiveOptions) :
  (padOf (bitWidth o) <= length (additiveChecksum message o))%nat
  /\ (2 <= padOf (bitWidth o))%nat.
Proof.
  split.
  - rewrite additiveChecksum_render. unfold padStart.
    rewrite length_app, repeat_length. lia.
  - unfold padOf. destruct (bitWidth o =? 8); [lia |].
    destruct (bitWidth o =? 32); lia.
Qed.

Lemma calculateChecksum_nonempty (data : jsstring) (alg : HashAlgorithm)
    (opts : option AdditiveOptions) :
  falsy (calculateChecksum data alg opts) = falsy data.
Proof.
  unfold calculateChecksum. destruct data as [| c data]; [reflexivity |].
  simpl falsy. cbv iota.
  set (o := match opts with Some o => o | None => defaultOptions end).
  destruct (additiveChecksum_length (c :: data) o) as [H1 H2].
  destruct (additiveChecksum (c :: data) o); [simpl in H1; lia | reflexivity].
Qed.

Lemma calculateChecksum_eq_nil (data : jsstring) (alg : HashAlgorithm)
    (opts : option AdditiveOptions) :
  calculateChecksum data alg opts = [] -> data = [].
Proof.
  intros E. pose proof (calculateChecksum_nonempty data alg opts) as H.
  rewrite E in H. destruct data; [reflexivity | discriminate H].
Qed.

(** X10. While the sums are exact (the initial value is at least -2^53 and
    the initial value plus the code units at most 2^53), the checksum does
    not see the order of the characters: a message and any rearrangement of
    it get the same checksum, from [additiveChecksum] and from
    [calculateChecksum]. *)
Theorem checksum_ignores_order (m1 m2 : jsstring) (w v : Z)
    (alg : HashAlgorithm) :
  exactSum m1 v -> Permutation m1 m2 ->
  additiveChecksum m1 (mkAdditiveOptions w v)
  = additiveChecksum m2 (mkAdditiveOptions w v)
  /\ calculateChecksum m1 alg (Some (mkAdditiveOptions w v))
     = calculateChecksum m2 alg (Some (mkAdditiveOptions w v)).
Proof.
  intros He1 HP.
  assert (Hs : codeSum m1 = codeSum m2) by now apply codeSum_Permutation.
  assert (He2 : exactSum m2 v) by (unfold exactSum in *; rewrite <- Hs; exact He1).
  assert (E : additiveChecksum m1 (mkAdditiveOptions w v)
              = additiveChecksum m2 (mkAdditiveOptions w v)).
  { rewrite !additiveChecksum_of_sum by assumption. now rewrite Hs. }
  split; [exact E |].
  unfold calculateChecksum.
  destruct m1 as [| c1 m1], m2 as [| c2 m2]; simpl falsy; cbv iota.
  - reflexivity.
  - apply Permutation_length in HP. discriminate HP.
  - apply Permutation_length in HP. discriminate HP.
  - exact E.
Qed.

Lemma checksum_ignores_order_witness :
  additiveChecksum (js "AB") (mkAdditiveOptions 16 0)
  = additiveChecksum (js "BA") (mkAdditiveOptions 16 0)
  /\ calculateChecksum (js "AB") ADDITIVE (Some (mkAdditiveOptions 16 0))
     = calculateChecksum (js "BA") ADDITIVE (Some (mkAdditiveOptions 16 0)).
Proof.
  apply (checksum_ignores_order (js "AB") (js "BA") 16 0 ADDITIVE).
  - unfold exactSum. simpl. lia.
  - apply perm_swap.
Defined.

(** X11. While the sums are exact, the loop started at v ends at v plus
    the code units of the message, and the checksum of a concatenation is
    the checksum of the second part started from the initial value plus
    the code units of the first, which is where the loop stands after the
    first part. *)
Theorem checksum_resumes (m1 m2 : jsstring) (w v : Z) :
  exactSum (m1 ++ m2) v ->
  sumLoop m1 (toDouble v) = Finite (v + codeSum m1)
  /\ additiveChecksum (m1 ++ m2) (mkAdditiveOptions w v)
     = additiveChecksum m2 (mkAdditiveOptions w (v + codeSum m1)).
Proof.
  intros He. pose proof (codeSum_nonneg m1) as H1.
  pose proof (codeSum_nonneg m2) as H2.
  unfold exactSum in He. rewrite codeSum_app in He.
  assert (He1 : exactSum m1 v) by (unfold exactSum; lia).
  assert (He2 : exactSum m2 (v + codeSum m1)) by (unfold exactSum; lia).
  assert (He12 : exactSum (m1 ++ m2) v)
    by (unfold exactSum; rewrite codeSum_app; lia).
  split; [now apply sumLoop_codeSum |].
  rewrite !additiveChecksum_of_sum by assumption. rewrite codeSum_app.
  do 4 f_equal. lia.
Qed.

Lemma checksum_resumes_witness :
  sumLoop (js "AB") (toDouble 7) = Finite (7 + codeSum (js "AB"))
  /\ additiveChecksum (js "AB" ++ js "CD") (mkAdditiveOptions 16 7)
     = additiveChecksum (js "CD") (mkAdditiveOptions 16 (7 + codeSum (js "AB"))).
Proof.
  apply (checksum_resumes (js "AB") (js "CD") 16 7).
  unfold exactSum. simpl. lia.
Defined.

(** X12. For the widths 8, 16 and 32 and while the sums are exact, two
    initial values that agree modulo 2^bitWidth give the same checksum
    string for the message. *)
Theorem initialValue_counts_modulo_width (message : jsstring) (w v v' : Z) :
  supported w -> exactSum message v -> exactSum message v' ->
  v mod 2 ^ w = v' mod 2 ^ w ->
  additiveChecksum message (mkAdditiveOptions w v)
  = additiveChecksum message (mkAdditiveOptions w v').
Proof.
  intros Hw He He' Hv. rewrite !additiveChecksum_of_sum by assumption.
  do 3 f_equal.
  apply (band_mask_eq_iff _ _ w Hw).
  rewrite (Zplus_mod v), (Zplus_mod v'). now rewrite Hv.
Qed.

Lemma initialValue_counts_modulo_width_witness :
  additiveChecksum (js "A") (mkAdditiveOptions 8 0x12)
  = additiveChecksum (js "A") (mkAdditiveOptions 8 0x312).
Proof.
  apply (initialValue_counts_modulo_width (js "A") 8 0x12 0x312).
  - unfold supported. lia.
  - unfold exactSum. simpl. lia.
  - unfold exactSum. simpl. lia.
  - reflexivity.
Defined.

(** X13. While the sums are exact (the initial value is at least -2^53
    and the initial value plus the code units at most 2^53): on the widths
    8 and 16, and on the width 32 while the low 32 bits of the sum stay
    below 2^31, the checksum is (initialValue + the code units) mod
    2^bitWidth written on exactly bitWidth/4 uppercase hexadecimal digits,
    and reads back as that number. *)
Theorem checksum_is_fixed_width_hex (message : jsstring) (w v : Z) :
  exactSum message v ->
  w = 8 \/ w = 16 \/ (w = 32 /\ (v + codeSum message) mod 2 ^ 32 < 2 ^ 31) ->
  let r := (v + codeSum message) mod 2 ^ w in
  additiveChecksum message (mkAdditiveOptions w v) = hexFixed (Z.to_nat (w / 4)) r
  /\ length (additiveChecksum message (mkAdditiveOptions w v)) = Z.to_nat (w / 4)
  /\ (forall c, In c (additiveChecksum message (mkAdditiveOptions w v)) ->
        exists d, 0 <= d < 16 /\ c = upperHexDigit d)
  /\ hexValue (additiveChecksum message (mkAdditiveOptions w v)) = Some r.
Proof.
  intros He Hw r.
  assert (E : additiveChecksum message (mkAdditiveOptions w v)
              = hexFixed (Z.to_nat (w / 4)) r)
    by (rewrite additiveChecksum_refines by assumption; reflexivity).
  assert (Hr : 0 <= r < 16 ^ Z.of_nat (Z.to_nat (w / 4)) /\ (1 <= Z.to_nat (w / 4))%nat).
  { unfold r. destruct Hw as [-> | [-> | [-> _]]].
    - change (Z.to_nat (8 / 4)) with 2%nat. change (16 ^ Z.of_nat 2) with (2 ^ 8).
      split; [apply Z.mod_pos_bound |]; lia.
    - change (Z.to_nat (16 / 4)) with 4%nat. change (16 ^ Z.of_nat 4) with (2 ^ 16).
      split; [apply Z.mod_pos_bound |]; lia.
    - change (Z.to_nat (32 / 4)) with 8%nat. change (16 ^ Z.of_nat 8) with (2 ^ 32).
      split; [apply Z.mod_pos_bound |]; lia. }
  destruct Hr as [Hr Hn].
  rewrite E. split; [reflexivity |].
  split; [apply length_hexFixed |].
  split; [intros c; apply hexFixed_digit |].
  apply hexValue_digits.
  - now apply hexFixed_nonempty.
  - rewrite hexNat_hexFixed. f_equal. rewrite Z.mod_small; lia.
Qed.

Lemma checksum_is_fixed_width_hex_witness :
  let r := (0 + codeSum (js "AAA>")) mod 2 ^ 8 in
  additiveChecksum (js "AAA>") (mkAdditiveOptions 8 0) = hexFixed (Z.to_nat (8 / 4)) r
  /\ length (additiveChecksum (js "AAA>") (mkAdditiveOptions 8 0)) = Z.to_nat (8 / 4)
  /\ (forall c, In c (additiveChecksum (js "AAA>") (mkAdditiveOptions 8 0)) ->
        exists d, 0 <= d < 16 /\ c = upperHexDigit d)
  /\ hexValue (additiveChecksum (js "AAA>") (mkAdditiveOptions 8 0)) = Some r.
Proof.
  apply (checksum_is_fixed_width_hex (js "AAA>") 8 0).
  - unfold exactSum. simpl. lia.
  - left. reflexivity.
Defined.

(** X14. While the sums are exact, on the width 32, once the low 32 bits of
    the sum reach 2^31 the checksum contains a minus sign: it is not the 8
    hexadecimal digits of that residue, and it does not read back as it. *)
Theorem checksum_32_high_bit (message : jsstring) (v : Z) :
  exactSum message v ->
  2 ^ 31 <= (v + codeSum message) mod 2 ^ 32 ->
  let r := (v + codeSum message) mod 2 ^ 32 in
  In 45%N (additiveChecksum message (mkAdditiveOptions 32 v))
  /\ additiveChecksum message (mkAdditiveOptions 32 v) <> hexFixed 8 r
  /\ hexValue (additiveChecksum message (mkAdditiveOptions 32 v)) <> Some r
  /\ paddedValue (additiveChecksum message (mkAdditiveOptions 32 v)) = r - 2 ^ 32.
Proof.
  intros He Hr r.
  assert (Hm : maskedSum message (mkAdditiveOptions 32 v) = r - 2 ^ 32).
  { rewrite maskedSum_32 by assumption. unfold ToInt32. fold r.
    destruct (Z.leb_spec (2 ^ 31) r); [reflexivity | lia]. }
  pose proof (Z.mod_pos_bound (v + codeSum message) (2 ^ 32) ltac:(lia)) as Hb.
  fold r in Hb.
  assert (Hin : In 45%N (additiveChecksum message (mkAdditiveOptions 32 v))).
  { rewrite additiveChecksum_render, Hm. unfold toString16, padStart.
    destruct (Z.ltb_spec (r - 2 ^ 32) 0) as [_ | ?]; [| lia].
    rewrite toUpperCase_cons. change (upperUnit 45) with 45%N.
    apply in_or_app. right. now left. }
  split; [exact Hin |]. split; [| split].
  - intros E. rewrite E in Hin.
    destruct (hexFixed_digit _ _ _ Hin) as (d & Hd & Hc).
    pose proof (hexDigitValue_upper d Hd) as Hv. rewrite <- Hc in Hv.
    discriminate Hv.
  - intros E. rewrite additiveChecksum_render, Hm in E.
    apply hexValue_render in E. lia.
  - rewrite additiveChecksum_render, Hm. apply paddedValue_render.
Qed.

Lemma checksum_32_high_bit_witness :
  let r := (0x7FFFFFFF + codeSum (js "A")) mod 2 ^ 32 in
  In 45%N (additiveChecksum (js "A") (mkAdditiveOptions 32 0x7FFFFFFF))
  /\ additiveChecksum (js "A") (mkAdditiveOptions 32 0x7FFFFFFF) <> hexFixed 8 r
  /\ hexValue (additiveChecksum (js "A") (mkAdditiveOptions 32 0x7FFFFFFF)) <> Some r
  /\ paddedValue (additiveChecksum (js "A") (mkAdditiveOptions 32 0x7FFFFFFF))
     = r - 2 ^ 32.
Proof.
  apply (checksum_32_high_bit (js "A") 0x7FFFFFFF).
  - unfold exactSum. simpl. lia.
  - vm_compute. discriminate.
Defined.

(** X15. With the same options and while the sums are exact for both, two
    messages collide exactly when their code-unit sums agree modulo
    2^bitWidth (widths 8, 16 and 32). *)
Theorem checksum_collisions (m1 m2 : jsstring) (w v : Z) :
  supported w -> exactSum m1 v -> exactSum m2 v ->
  additiveChecksum m1 (mkAdditiveOptions w v)
  = additiveChecksum m2 (mkAdditiveOptions w v)
  <-> codeSum m1 mod 2 ^ w = codeSum m2 mod 2 ^ w.
Proof.
  intros Hw He1 He2.
  assert (Hpos : 0 < 2 ^ w) by (destruct Hw as [-> | [-> | ->]]; lia).
  rewrite !additiveChecksum_of_sum by assumption. split.
  - intros E. apply render_injective in E.
    apply (band_mask_eq_iff _ _ w Hw) in E.
    now apply (mod_add_cancel_l v _ _ _ Hpos).
  - intros E. apply (mod_add_cancel_l v _ _ _ Hpos) in E.
    apply (band_mask_eq_iff _ _ w Hw) in E. now rewrite E.
Qed.

Lemma checksum_collisions_witness :
  additiveChecksum (js "AC") (mkAdditiveOptions 16 7)
  = additiveChecksum (js "BB") (mkAdditiveOptions 16 7)
  <-> codeSum (js "AC") mod 2 ^ 16 = codeSum (js "BB") mod 2 ^ 16.
Proof.
  apply (checksum_collisions (js "AC") (js "BB") 16 7).
  - unfold supported. lia.
  - unfold exactSum. simpl. lia.
  - unfold exactSum. simpl. lia.
Defined.

(** X16. While the sums are exact for both messages, replacing one
    character by another changes the checksum unless the two code units
    agree modulo 2^bitWidth; on 16 and 32 bits, where a code unit (below
    2^16) is its own residue, the change is always seen. *)
Theorem substitution_detected (a b : jsstring) (c c' : codeunit) (w v : Z) :
  supported w ->
  exactSum (a ++ c :: b) v -> exactSum (a ++ c' :: b) v ->
  (additiveChecksum (a ++ c :: b) (mkAdditiveOptions w v)
   = additiveChecksum (a ++ c' :: b) (mkAdditiveOptions w v)
   <-> Z.of_N c mod 2 ^ w = Z.of_N c' mod 2 ^ w)
  /\ (w <> 8 -> (c < 65536)%N -> (c' < 65536)%N -> c <> c' ->
      additiveChecksum (a ++ c :: b) (mkAdditiveOptions w v)
      <> additiveChecksum (a ++ c' :: b) (mkAdditiveOptions w v)).
Proof.
  intros Hw He He'.
  assert (Hpos : 0 < 2 ^ w) by (destruct Hw as [-> | [-> | ->]]; lia).
  assert (Hiff : additiveChecksum (a ++ c :: b) (mkAdditiveOptions w v)
                 = additiveChecksum (a ++ c' :: b) (mkAdditiveOptions w v)
                 <-> Z.of_N c mod 2 ^ w = Z.of_N c' mod 2 ^ w).
  { rewrite (same_checksum_iff _ _ w v Hw He He'), !codeSum_app. simpl codeSum.
    unfold charCode.
    rewrite (mod_add_cancel_l (codeSum a) _ _ _ Hpos).
    rewrite (Z.add_comm (Z.of_N c)), (Z.add_comm (Z.of_N c')).
    apply (mod_add_cancel_l (codeSum b) _ _ _ Hpos). }
  split; [exact Hiff |].
  intros H8 Hc Hc' Hne E. apply Hiff in E.
  assert (Hle : 2 ^ 16 <= 2 ^ w) by (destruct Hw as [-> | [-> | ->]]; lia).
  rewrite !Z.mod_small in E by lia.
  apply Hne. lia.
Qed.

Lemma substitution_detected_witness :
  (additiveChecksum (js "ab" ++ 99%N :: js "d") (mkAdditiveOptions 16 0)
   = additiveChecksum (js "ab" ++ 120%N :: js "d") (mkAdditiveOptions 16 0)
   <-> Z.of_N 99 mod 2 ^ 16 = Z.of_N 120 mod 2 ^ 16)
  /\ (16 <> 8 -> (99 < 65536)%N -> (120 < 65536)%N -> 99%N <> 120%N ->
      additiveChecksum (js "ab" ++ 99%N :: js "d") (mkAdditiveOptions 16 0)
      <> additiveChecksum (js "ab" ++ 120%N :: js "d") (mkAdditiveOptions 16 0)).
Proof.
  apply (substitution_detected (js "ab") (js "d") 99%N 120%N 16 0).
  - unfold supported. lia.
  - unfold exactSum. simpl. lia.
  - unfold exactSum. simpl. lia.
Defined.

(** X17. [calculateChecksum] returns the empty string for the empty string
    only: for any other data the result has at least two characters. *)
Theorem calculateChecksum_empty_only (data : jsstring) (alg : HashAlgorithm)
    (opts : option AdditiveOptions) :
  (calculateChecksum data alg opts = [] <-> data = [])
  /\ (data <> [] -> (2 <= length (calculateChecksum data alg opts))%nat).
Proof.
  split.
  - split; [apply calculateChecksum_eq_nil | now intros ->].
  - intros Hne. unfold calculateChecksum.
    destruct data as [| c data]; [contradiction |]. simpl falsy. cbv iota.
    set (o := match opts with Some o => o | None => defaultOptions end).
    destruct (additiveChecksum_length (c :: data) o). lia.
Qed.

(** ** The history log *)

Lemma history_addToHistory alg ty res summ env st :
  Integrity.history (Integrity.addToHistory alg ty res summ env st)
  = take 50 (HistoryEntry.mk (Integrity.randomId env) (Integrity.now env)
               alg ty res summ :: Integrity.history st).
Proof. reflexivity. Qed.

(** X18. After [addToHistory] the log has one entry more, but never more than
    50: the new entry comes first, the entries before it keep their order
    one place down, whatever was in place 50 or later is gone, and the
    stored copy is the log.  [transmit] and [processBatch], which end with
    it, keep the bound. *)
Theorem history_keeps_50 alg ty res summ (env : Integrity.Draw)
    (st : Integrity.State) :
  let st' := Integrity.addToHistory alg ty res summ env st in
  length (Integrity.history st') = Nat.min 50 (S (length (Integrity.history st)))
  /\ Integrity.history st' !! 0%nat
     = Some (HistoryEntry.mk (Integrity.randomId env) (Integrity.now env)
               alg ty res summ)
  /\ (forall k : nat, (k < 49)%nat ->
        Integrity.history st' !! S k = Integrity.history st !! k)
  /\ (forall k : nat, (50 <= k)%nat -> Integrity.history st' !! k = None)
  /\ Integrity.storedHistory st' = Some (Integrity.history st')
  /\ (length (Integrity.history (Integrity.transmit env st)) <= 50)%nat
  /\ (length (Integrity.history (Integrity.processBatch env st)) <= 50)%nat.
Proof.
  intros st'. unfold st'. rewrite history_addToHistory.
  split; [rewrite length_take; simpl; lia |].
  split; [reflexivity |].
  split; [intros k Hk; rewrite lookup_take_lt by lia; reflexivity |].
  split; [intros k Hk; apply lookup_ge_None_2; rewrite length_take; lia |].
  split; [reflexivity |].
  split.
  - unfold Integrity.transmit. cbv zeta. rewrite history_addToHistory.
    rewrite length_take. lia.
  - unfold Integrity.processBatch.
    destruct (Integrity.processLoop _ _ _) as [final shown].
    rewrite history_addToHistory, length_take. lia.
Qed.

(** ** Sending, receiving and comparing *)

Lemma str_eqb_eq (a b : jsstring) : str_eqb a b = true <-> a = b.
Proof.
  revert b. induction a as [| x a IH]; intros [| y b]; simpl;
    try (split; [discriminate | discriminate]); [split; reflexivity |].
  rewrite andb_true_iff, N.eqb_eq, IH. split.
  - now intros [-> ->].
  - intros E. injection E as -> ->. split; reflexivity.
Qed.

Lemma str_eqb_refl (a : jsstring) : str_eqb a a = true.
Proof. now apply str_eqb_eq. Qed.

(** X19. Once the sender's checksum is computed, transmitting and recomputing
    on the receiving side never gives a mismatch, and gives a match unless
    the data is empty. *)
Theorem transmit_then_match (env : Integrity.Draw) (st : Integrity.State) :
  let st' := Integrity.runEffects (Integrity.transmit env (Integrity.runEffects st)) in
  Integrity.receiverData st' = Integrity.senderData st
  /\ Integrity.isMismatch st' = false
  /\ Integrity.isMatch st' = negb (falsy (Integrity.senderData st)).
Proof.
  destruct st as [o sd sc rd rr rc items h sh sp]. simpl.
  unfold Integrity.isMismatch, Integrity.isMatch. simpl.
  rewrite str_eqb_refl, calculateChecksum_nonempty.
  split; [reflexivity |]. split.
  - now destruct (falsy sd).
  - now destruct (falsy sd).
Qed.

(** X20. After a transmission, if the receiver's data is changed to a message
    that is not empty, the comparison shows a match exactly when the code
    units of the new message and of the one sent have the same sum modulo
    2^bitWidth, and a mismatch otherwise (widths 8, 16, 32; the message
    sent is not empty; the sums are exact for both messages). *)
Theorem tampering_shows_unless_sums_agree (env : Integrity.Draw)
    (st : Integrity.State) (m' : jsstring) :
  supported (bitWidth (Integrity.additiveOptions st)) ->
  exactSum (Integrity.senderData st) (initialValue (Integrity.additiveOptions st)) ->
  exactSum m' (initialValue (Integrity.additiveOptions st)) ->
  Integrity.senderData st <> [] -> m' <> [] ->
  let st' :=
    Integrity.runEffects
      (Integrity.setReceiverData m'
         (Integrity.runEffects (Integrity.transmit env (Integrity.runEffects st)))) in
  (Integrity.isMatch st' = true
   <-> codeSum m' mod 2 ^ bitWidth (Integrity.additiveOptions st)
       = codeSum (Integrity.senderData st) mod 2 ^ bitWidth (Integrity.additiveOptions st))
  /\ Integrity.isMismatch st' = negb (Integrity.isMatch st').
Proof.
  destruct st as [[w v] sd sc rd rr rc items h sh sp]. simpl.
  intros Hw Hes Hem Hsd Hm.
  unfold Integrity.isMismatch, Integrity.isMatch. simpl.
  rewrite !calculateChecksum_nonempty.
  destruct sd as [| c0 sd]; [contradiction |].
  destruct m' as [| c1 m']; [contradiction |].
  simpl falsy. simpl negb. rewrite !andb_true_l.
  split; [| reflexivity].
  rewrite str_eqb_eq. unfold calculateChecksum. simpl falsy. cbv iota.
  apply (same_checksum_iff _ _ w v Hw Hem Hes).
Qed.

(** X21. With empty data on the receiving side the comparison shows neither a
    match nor a mismatch, whatever checksum was received. *)
Theorem empty_receiver_shows_nothing (st : Integrity.State) :
  Integrity.receiverData st = [] ->
  Integrity.isMatch (Integrity.runEffects st) = false
  /\ Integrity.isMismatch (Integrity.runEffects st) = false.
Proof.
  destruct st as [o sd sc rd rr rc items h sh sp]. simpl. intros ->.
  split; reflexivity.
Qed.

Lemma tampering_shows_unless_sums_agree_witness :
  let st :=
    Integrity.mkState (mkAdditiveOptions 16 0) (js "AC") (js "") (js "") (js "")
      (js "") [] [] None None in
  let env := Integrity.mkDraw (js "0.k3") 1700000000000 in
  let st' :=
    Integrity.runEffects
      (Integrity.setReceiverData (js "BB")
         (Integrity.runEffects (Integrity.transmit env (Integrity.runEffects st)))) in
  (Integrity.isMatch st' = true
   <-> codeSum (js "BB") mod 2 ^ bitWidth (Integrity.additiveOptions st)
       = codeSum (Integrity.senderData st) mod 2 ^ bitWidth (Integrity.additiveOptions st))
  /\ Integrity.isMismatch st' = negb (Integrity.isMatch st').
Proof.
  apply (tampering_shows_unless_sums_agree
           (Integrity.mkDraw (js "0.k3") 1700000000000)
           (Integrity.mkState (mkAdditiveOptions 16 0) (js "AC") (js "") (js "")
              (js "") (js "") [] [] None None)
           (js "BB"));
    [simpl; unfold supported; lia | unfold exactSum; simpl; lia
     | unfold exactSum; simpl; lia | discriminate | discriminate].
Defined.

Lemma empty_receiver_shows_nothing_witness :
  let st :=
    Integrity.mkState (mkAdditiveOptions 16 0) (js "AC") (js "0084") (js "")
      (js "0084") (js "0084") [] [] None None in
  Integrity.isMatch (Integrity.runEffects st) = false
  /\ Integrity.isMismatch (Integrity.runEffects st) = false.
Proof.
  apply (empty_receiver_shows_nothing
           (Integrity.mkState (mkAdditiveOptions 16 0) (js "AC") (js "0084") (js "")
              (js "0084") (js "0084") [] [] None None)).
  reflexivity.
Defined.

(** ** The batch *)

Lemma num_toString_nonempty (z : Z) : num_toString (Num z) <> [].
Proof.
  unfold num_toString, NilZero.string_of_int.
  destruct (Z.to_int z) as [d | d]; [| discriminate].
  destruct d; discriminate.
Qed.

Lemma processed_completed (o : AdditiveOptions) (item : BatchItem.t) :
  Integrity.isCompleted (processed o item) = true.
Proof.
  unfold processed. destruct (Integrity.isCompleted item) eqn:E; [exact E | reflexivity].
Qed.

Lemma processed_idem (o o' : AdditiveOptions) (item : BatchItem.t) :
  processed o' (processed o item) = processed o item.
Proof.
  unfold processed at 1. now rewrite processed_completed.
Qed.

(** The loop ends with every item of [rest] processed, behind [before]. *)
Lemma processLoop_final (o : AdditiveOptions) (rest before : list BatchItem.t) :
  fst (Integrity.processLoop o before rest) = before ++ map (processed o) rest.
Proof.
  revert before. induction rest as [| item rest IH]; intros before; simpl.
  - now rewrite app_nil_r.
  - unfold processed at 1. destruct (Integrity.isCompleted item).
    + rewrite IH, <- app_assoc. reflexivity.
    + specialize (IH (before ++ [Integrity.complete o (Integrity.markProcessing item)])).
      destruct (Integrity.processLoop o _ rest) as [final shown].
      simpl in *. rewrite IH, <- app_assoc. reflexivity.
Qed.

(** Nothing is shown when every item is completed already. *)
Lemma processLoop_all_completed (o : AdditiveOptions) (rest before : list BatchItem.t) :
  forallb Integrity.isCompleted rest = true ->
  snd (Integrity.processLoop o before rest) = [].
Proof.
  revert before. induction rest as [| item rest IH]; intros before; simpl;
    [reflexivity |].
  intros H. apply andb_true_iff in H as [Hi Hr]. rewrite Hi. now apply IH.
Qed.

(** Every array shown on the way has the length of the whole batch, and
    the last one shown is the final array. *)
Lemma processLoop_shown (o : AdditiveOptions) (rest before : list BatchItem.t) :
  let '(final, shown) := Integrity.processLoop o before rest in
  Forall (fun a => length a = (length before + length rest)%nat) shown
  /\ length shown
     = (2 * length (List.filter (fun i => negb (Integrity.isCompleted i)) rest))%nat
  /\ (shown <> [] -> last shown = Some final).
Proof.
  revert before. induction rest as [| item rest IH]; intros before; simpl.
  - split; [constructor |]. split; [reflexivity | intros H; contradiction].
  - destruct (Integrity.isCompleted item) eqn:E; simpl negb; cbv iota.
    + specialize (IH (before ++ [item])).
      destruct (Integrity.processLoop o (before ++ [item]) rest) as [final shown].
      destruct IH as (H1 & H2 & H3).
      split; [| split; assumption].
      eapply Forall_impl; [exact H1 |]. intros a Ha. simpl in Ha.
      rewrite Ha, length_app. simpl. lia.
    + specialize (IH (before ++ [Integrity.complete o (Integrity.markProcessing item)])).
      pose proof (processLoop_final o rest
                    (before ++ [Integrity.complete o (Integrity.markProcessing item)]))
        as Hf.
      destruct (Integrity.processLoop o _ rest) as [final shown].
      destruct IH as (H1 & H2 & H3). simpl in Hf.
      split; [| split].
      * constructor; [rewrite length_app; reflexivity |].
        constructor; [rewrite length_app; reflexivity |].
        eapply Forall_impl; [exact H1 |]. intros a Ha. simpl in Ha.
        rewrite Ha, length_app. simpl. lia.
      * simpl. rewrite H2. lia.
      * intros _. destruct shown as [| s shown].
        { simpl. f_equal. rewrite Hf.
          assert (Hall : map (processed o) rest = rest).
          { assert (Hc : length (List.filter (fun i => negb (Integrity.isCompleted i)) rest)
                         = 0%nat) by (simpl in H2; lia).
            clear - Hc. induction rest as [| i rest IH]; simpl in *; [reflexivity |].
            unfold processed at 1.
            destruct (Integrity.isCompleted i); simpl in Hc; [| discriminate].
            now rewrite IH. }
          rewrite Hall, <- app_assoc. reflexivity. }
        { change (last (s :: shown) = Some final).
          apply H3. discriminate. }
Qed.

Lemma batchItems_processBatch (env : Integrity.Draw) (st : Integrity.State) :
  Integrity.batchItems (Integrity.processBatch env st)
  = map (processed (Integrity.additiveOptions st)) (Integrity.batchItems st).
Proof.
  unfold Integrity.processBatch.
  pose proof (processLoop_final (Integrity.additiveOptions st)
                (Integrity.batchItems st) []) as Hf.
  pose proof (processLoop_shown (Integrity.additiveOptions st)
                (Integrity.batchItems st) []) as Hs.
  destruct (Integrity.processLoop _ _ _) as [final shown].
  simpl in Hf. destruct Hs as (_ & Hn & _).
  destruct shown as [| s shown]; simpl; [| exact Hf].
  simpl in Hn.
  assert (Hc : length (List.filter (fun i => negb (Integrity.isCompleted i))
                         (Integrity.batchItems st)) = 0%nat) by lia.
  clear - Hc. induction (Integrity.batchItems st) as [| i rest IH];
    simpl in *; [reflexivity |].
  unfold processed at 1.
  destruct (Integrity.isCompleted i); simpl in Hc; [| discriminate].
  now rewrite <- IH.
Qed.

Lemma additiveOptions_processBatch (env : Integrity.Draw) (st : Integrity.State) :
  Integrity.additiveOptions (Integrity.processBatch env st)
  = Integrity.additiveOptions st.
Proof.
  unfold Integrity.processBatch.
  destruct (Integrity.processLoop _ _ _) as [final shown].
  destruct shown; reflexivity.
Qed.

(** X22. [processBatch] leaves as many items as it found, all completed, each
    with its id, name, size and data.  An item that was completed is left
    as it was; any other item gets the checksum of its name followed by
    its size in decimal, with the options of the moment, and that checksum
    is never empty: the data of the item plays no part. *)
Theorem processBatch_completes (env : Integrity.Draw) (st : Integrity.State) :
  let o := Integrity.additiveOptions st in
  let st' := Integrity.processBatch env st in
  length (Integrity.batchItems st') = length (Integrity.batchItems st)
  /\ forall (k : nat) (item : BatchItem.t),
       Integrity.batchItems st !! k = Some item ->
       exists item',
         Integrity.batchItems st' !! k = Some item'
         /\ BatchItem.status item' = completed
         /\ BatchItem.id item' = BatchItem.id item
         /\ BatchItem.name item' = BatchItem.name item
         /\ BatchItem.size item' = BatchItem.size item
         /\ BatchItem.data item' = BatchItem.data item
         /\ (BatchItem.status item = completed -> item' = item)
         /\ (BatchItem.status item <> completed ->
             exists c,
               BatchItem.checksum item' = Some c /\ c <> []
               /\ c = calculateChecksum
                        (BatchItem.name item ++ num_toString (Num (BatchItem.size item)))
                        ADDITIVE (Some o)).
Proof.
  intros o st'. unfold st'. rewrite batchItems_processBatch. fold o.
  split; [apply length_map |].
  intros k item Hk. exists (processed o item).
  split; [rewrite map_is_fmap, list_lookup_fmap, Hk; reflexivity |].
  unfold processed, Integrity.isCompleted.
  destruct item as [i n s d c stt]. simpl.
  destruct stt; simpl; repeat split; try congruence; intros _;
    eexists; (split; [reflexivity |]); (split; [| reflexivity]);
    intros E; apply calculateChecksum_eq_nil in E;
    apply app_eq_nil in E as [_ E]; revert E; apply num_toString_nonempty.
Qed.

(** X23. A second [processBatch] changes no item and shows nothing, also when
    the options were changed in between: a completed item keeps the
    checksum computed with the options of its own run. *)
Theorem processBatch_again (env1 env2 : Integrity.Draw) (o' : AdditiveOptions)
    (st : Integrity.State) :
  let st1 := Integrity.processBatch env1 st in
  let st2 := Integrity.saveAdditiveOptions o' st1 in
  Integrity.batchItems (Integrity.processBatch env2 st2) = Integrity.batchItems st1
  /\ snd (Integrity.processLoop o' [] (Integrity.batchItems st2)) = [].
Proof.
  intros st1 st2.
  assert (Hb : Integrity.batchItems st2 = Integrity.batchItems st1) by reflexivity.
  split.
  - rewrite batchItems_processBatch, Hb. unfold st1.
    rewrite batchItems_processBatch, map_map.
    apply map_ext. intros item. apply processed_idem.
  - apply processLoop_all_completed. rewrite Hb. unfold st1.
    rewrite batchItems_processBatch.
    induction (Integrity.batchItems st) as [| i l IH]; simpl; [reflexivity |].
    now rewrite processed_completed.
Qed.

(** X24. While [processBatch] runs, every array it passes to [setBatchItems]
    has as many items as the batch; there are two of them for each item
    that was not completed, and the last one is the array the loop ends
    with. *)
Theorem processBatch_shows (o : AdditiveOptions) (items : list BatchItem.t) :
  let shown := snd (Integrity.processLoop o [] items) in
  Forall (fun a => length a = length items) shown
  /\ length shown
     = (2 * length (List.filter (fun i => negb (Integrity.isCompleted i)) items))%nat
  /\ (shown <> [] -> last shown = Some (map (processed o) items)).
Proof.
  pose proof (processLoop_shown o items []) as H.
  pose proof (processLoop_final o items []) as Hf.
  destruct (Integrity.processLoop o [] items) as [final shown].
  simpl in *. destruct H as (H1 & H2 & H3).
  split; [exact H1 |]. split; [exact H2 |].
  intros Hne. rewrite <- Hf. now apply H3.
Qed.

(** X25. Files that are added and then processed end as completed items, in the
    order of the selection and behind the items that were there, each with
    the checksum of its name and size. *)
Theorem upload_then_process (env : Integrity.Draw) (files : list Integrity.Upload)
    (st : Integrity.State) :
  let o := Integrity.additiveOptions st in
  Integrity.batchItems (Integrity.processBatch env (Integrity.handleFileUpload files st))
  = map (processed o) (Integrity.batchItems st)
    ++ map (fun f =>
              BatchItem.mk (Integrity.drawnId f) (Integrity.fileName f)
                (Integrity.fileSize f) []
                (Some (calculateChecksum
                         (Integrity.fileName f
                            ++ num_toString (Num (Integrity.fileSize f)))
                         ADDITIVE (Some o)))
                completed)
        files.
Proof.
  intros o. rewrite batchItems_processBatch.
  change (Integrity.additiveOptions (Integrity.handleFileUpload files st)) with o.
  change (Integrity.batchItems (Integrity.handleFileUpload files st))
    with (Integrity.batchItems st
          ++ map (fun f => BatchItem.mk (Integrity.drawnId f) (Integrity.fileName f)
                             (Integrity.fileSize f) [] None pending) files).
  rewrite map_app, map_map. reflexivity.
Qed.

(** ** The field of the initial value *)





